(** * Message routing of the multi-agent RabbitMQ orchestrator

  A shallow embedding of the routing code of the repository: the agent
  identity resolution of the [RabbitMQClient] and [Orchestrator]
  constructors, the per-agent exclusive result queue, the dual publish of
  brainstorm responses, the two result collectors, and the retry handler of
  the task consumer.  Each definition names the source function it embeds. *)

From Stdlib Require Import ZArith Lia.
From stdpp Require Import gmap strings list sorting.

Open Scope string_scope.
Open Scope Z_scope.
Open Scope list_scope.

(** ** The fragment of JavaScript values the routing code handles *)

Module JS.

(** An agent id, a session id or an optional argument is [undefined],
    [null] or a string. *)
Inductive value : Type :=
| VUndefined
| VNull
| VString (s : string).

#[export] Instance value_eq_dec : EqDecision value.
Proof. solve_decision. Defined.

(** [ToBoolean]: [undefined], [null] and the empty string are falsy. *)
Definition truthy (v : value) : bool :=
  match v with
  | VString s => bool_decide (s ≠ "")
  | VUndefined | VNull => false
  end.

(** [a || b] where evaluating [b] may use the state [S]: [b] is evaluated
    only when [a] is falsy. *)
Definition or_else {S : Type} (a : value) (b : S → value * S) : S → value * S :=
  λ s, if truthy a then (a, s) else b s.

(** A value counts as supplied when it is a string and not the empty one. *)
Definition supplied (v : value) : Prop := ∃ s, v = VString s ∧ s ≠ "".

(** [`${v}`]: the string a template literal substitutes for [v]. *)
Definition to_template (v : value) : string :=
  match v with
  | VUndefined => "undefined"
  | VNull => "null"
  | VString s => s
  end.

(** [a === b]. *)
Definition strict_eq (a b : value) : bool := bool_decide (a = b).

(** A default parameter [p = d]: the default replaces [undefined] only. *)
Definition param_default (d v : value) : value :=
  match v with VUndefined => d | _ => v end.

(** A JavaScript number that may be [Infinity] ([maxResponses]). *)
Inductive bound : Type :=
| Finite (n : Z)
| Infinity.

(** [len >= b] for an array length [len]. *)
Definition length_ge (len : nat) (b : bound) : bool :=
  match b with
  | Finite n => bool_decide (n ≤ Z.of_nat len)
  | Infinity => false
  end.

End JS.

(** ** Agent identity *)

Module Identity.
Import JS.

(** [config = {}]: the one field of the constructor argument that the
    resolution reads. *)
Record Config : Type := { cfg_agentId : value }.

(** [process.env]: [AGENT_ID] is unset or a string. *)
Record Env : Type := { AGENT_ID : option string }.

Definition env_value (o : option string) : value :=
  match o with Some s => VString s | None => VUndefined end.

Record RabbitMQClient : Type := { agentId : value }.

Record Orchestrator : Type := { orch_agentId : value; client : RabbitMQClient }.

Section Generator.
(** The random source behind [uuidv4()] of the uuid package: a call
    returns a string and advances the source. *)
Variable rng : Type.
Variable uuidv4 : rng → string * rng.

(** [`agent-${uuidv4()}`]. *)
Definition generate (g : rng) : value * rng :=
  let (u, g') := uuidv4 g in (VString ("agent-" +:+ u), g').

(** rabbitmq-client.js line 25:
    [this.agentId = config.agentId || process.env.AGENT_ID || `agent-${uuidv4()}`].
    The random source is advanced only if [uuidv4()] is reached. *)
Definition new_RabbitMQClient (config : Config) (env : Env) (g : rng)
  : RabbitMQClient * rng :=
  let (id, g') :=
    or_else (cfg_agentId config)
      (or_else (env_value (AGENT_ID env)) generate) g in
  ({| agentId := id |}, g').

(** orchestrator.js constructor:
    [this.agentId = config.agentId || `agent-${uuidv4()}`;
     this.client = new RabbitMQClient({ agentId: this.agentId, ... })]. *)
Definition new_Orchestrator (config : Config) (env : Env) (g : rng)
  : Orchestrator * rng :=
  let '(id, g1) := or_else (cfg_agentId config) generate g in
  let '(c, g2) := new_RabbitMQClient {| cfg_agentId := id |} env g1 in
  ({| orch_agentId := id; client := c |}, g2).

End Generator.

Arguments generate {rng} uuidv4 g.
Arguments new_RabbitMQClient {rng} uuidv4 config env g.
Arguments new_Orchestrator {rng} uuidv4 config env g.

(** A random source for concrete runs: the uuids still to be drawn. *)
Definition draw (g : list string) : string * list string :=
  match g with
  | [] => ("00000000-0000-4000-8000-000000000000", [])
  | u :: g' => (u, g')
  end.

End Identity.

(** ** Queues, broadcasts and result publishing (rabbitmq-client.js, orchestrator.js) *)

Module Routing.
Import JS Identity.

(** The options [assertQueue] is called with. *)
Record QueueOptions : Type :=
  { exclusive : bool; autoDelete : bool; durable : bool }.

(** The document inside a broadcast: [msg.message]. *)
Record Session : Type :=
  { s_sessionId : value; topic : string; question : string }.

(** A brainstorm broadcast as a collaborator receives it. *)
Record Broadcast : Type :=
  { b_from : value; replyTo : string; message : Session }.

(** The response object built by [handleBrainstorm]. *)
Record Response : Type :=
  { sessionId : value;
    from : value;
    suggestion : string;
    timestamp : Z;
    type : string }.

(** The channel of one broker connection: the queues asserted so far, the
    messages sent to queues and the messages published to exchanges, both in
    publication order. *)
Record Channel : Type :=
  { declared : gmap string QueueOptions;
    sent : list (string * Response);
    fanned : list (string * Broadcast) }.

Definition empty_channel : Channel :=
  {| declared := ∅; sent := []; fanned := [] |}.

(** [channel.assertQueue(name, options)]. *)
Definition assertQueue (name : string) (o : QueueOptions) (ch : Channel) : Channel :=
  {| declared := <[name := o]> (declared ch); sent := sent ch; fanned := fanned ch |}.

(** [channel.sendToQueue(queue, content)]. *)
Definition sendToQueue (queue : string) (r : Response) (ch : Channel) : Channel :=
  {| declared := declared ch; sent := sent ch ++ [(queue, r)]; fanned := fanned ch |}.

(** [channel.publish(exchange, '', content, { replyTo })]. *)
Definition publish (exchange : string) (b : Broadcast) (ch : Channel) : Channel :=
  {| declared := declared ch; sent := sent ch; fanned := fanned ch ++ [(exchange, b)] |}.

(** The messages that reached queue [q], oldest first. *)
Definition queue_contents (q : string) (ch : Channel) : list Response :=
  (filter (λ p, p.1 = q) (sent ch)).*2.

(** [`brainstorm.results.${id}`], the template both the client's queue
    set-up and its broadcast evaluate. *)
Definition result_queue_name (id : value) : string :=
  "brainstorm.results." +:+ to_template id.

(** rabbitmq-client.js lines 156-168:
    [async setupBrainstormResultQueue() {
       const queueName = `brainstorm.results.${this.agentId}`;
       await this.channel.assertQueue(queueName,
         { exclusive: true, autoDelete: true, durable: false });
       return queueName; }]. *)
Definition setupBrainstormResultQueue (c : RabbitMQClient) (ch : Channel)
  : string * Channel :=
  let queueName := "brainstorm.results." +:+ to_template (agentId c) in
  (queueName,
   assertQueue queueName
     {| exclusive := true; autoDelete := true; durable := false |} ch).

(** Modelled from the spec: the fields of the broadcast that the source
    elides ([// ...existing fields]); the spec has the message embed the
    initiator's id and the session, and [handleBrainstorm] reads them as
    [msg.from] and [msg.message].

    rabbitmq-client.js lines 239-262:
    [async broadcastBrainstorm(message, exchangeName = 'agent.brainstorm') {
       const msg = { ..., replyTo: `brainstorm.results.${this.agentId}`, ... };
       this.channel.publish(exchangeName, '', Buffer.from(JSON.stringify(msg)),
         { replyTo: msg.replyTo }); }]. *)
Definition broadcastBrainstorm (c : RabbitMQClient) (m : Session)
    (exchangeName : option string) (ch : Channel) : Broadcast * Channel :=
  let exchangeName := default "agent.brainstorm" exchangeName in
  let msg :=
    {| b_from := agentId c;
       replyTo := "brainstorm.results." +:+ to_template (agentId c);
       message := m |} in
  (msg, publish exchangeName msg ch).

(** rabbitmq-client.js lines 298-324:
    [async publishResult(result, targetAgentId = null, queueName = 'agent.results') {
       const destinationQueue = targetAgentId
         ? `brainstorm.results.${targetAgentId}`
         : queueName;
       // ... publish to destinationQueue }].
    An omitted argument is [VUndefined] (for [queueName], [None]). *)
Definition destinationQueue (targetAgentId : value) (queueName : option string)
  : string :=
  let targetAgentId := param_default VNull targetAgentId in
  let queueName := default "agent.results" queueName in
  if truthy targetAgentId
  then "brainstorm.results." +:+ to_template targetAgentId
  else queueName.

Definition publishResult (result : Response) (targetAgentId : value)
    (queueName : option string) (ch : Channel) : Channel :=
  sendToQueue (destinationQueue targetAgentId queueName) result ch.

(** The part of an orchestrator that answering a broadcast reads and writes. *)
Record Worker : Type :=
  { w_agentId : value; brainstormsParticipated : nat }.

(** Modelled from the spec: the orchestrator's own [publishResult(result,
    target)] is not among the sources; the responses of a collaborator go
    out through the client's [publishResult] with the same arguments. *)
Definition orchestrator_publishResult (result : Response) (target : value)
    (ch : Channel) : Channel :=
  publishResult result target None ch.

(** orchestrator.js, [handleBrainstorm(msg)]:
    [const response = { sessionId: msg.message.sessionId, from: this.agentId,
       suggestion: generatedSuggestion, timestamp: Date.now(),
       type: 'brainstorm_response' };
     await this.publishResult(response, msg.from);
     await this.publishResult(response);
     this.stats.brainstormsParticipated++;]
    [generatedSuggestion] and the clock reading are inputs. *)
Definition build_response (w : Worker) (msg : Broadcast)
    (generatedSuggestion : string) (now : Z) : Response :=
  {| sessionId := s_sessionId (message msg);
     from := w_agentId w;
     suggestion := generatedSuggestion;
     timestamp := now;
     type := "brainstorm_response" |}.

Definition handleBrainstorm (w : Worker) (msg : Broadcast)
    (generatedSuggestion : string) (now : Z) (ch : Channel) : Worker * Channel :=
  let response := build_response w msg generatedSuggestion now in
  let ch1 := orchestrator_publishResult response (b_from msg) ch in
  let ch2 := orchestrator_publishResult response VUndefined ch1 in
  ({| w_agentId := w_agentId w;
      brainstormsParticipated := S (brainstormsParticipated w) |}, ch2).

(** Collaborators answering broadcasts on one broker, one answer after the
    other: who answers, which broadcast, with what suggestion, and when. *)
Fixpoint answers (events : list (Worker * Broadcast * string * Z))
    (ch : Channel) : Channel :=
  match events with
  | [] => ch
  | (w, msg, s, now) :: rest => answers rest (handleBrainstorm w msg s now ch).2
  end.

(** Every message sent to a queue has a copy on the shared queue. *)
Definition mirrored (ch : Channel) : Prop :=
  ∀ q r, (q, r) ∈ sent ch → ("agent.results", r) ∈ sent ch.

End Routing.

(** ** Collecting brainstorm responses (skills/collaboration, Timeout Management) *)

Module Collector.
Import JS Routing.

(** [options = {}] of [collectResponses]; an absent field is [None]. *)
Record Options : Type :=
  { timeout : option Z;
    minResponses : option Z;
    maxResponses : option bound }.

(** What the event loop runs after [collectResponses] has installed its
    interval and its consumer: the interval callback, with the reading
    [Date.now()] gives inside it, or the consumer callback, with a message of
    [agent.results]. *)
Inductive Event : Type :=
| Tick (now : Z)
| Result (result : Response).

(** The clock reading of the interval callback that resolved the promise and
    the contents, at that moment, of the array it was resolved with; the
    array itself stays the [responses] of the closure. *)
Record Settlement : Type :=
  { settledAt : Z; settledWith : list Response }.

(** The closure of one call: the [responses] array, whether the interval is
    still set, and the promise. *)
Record State : Type :=
  { responses : list Response;
    interval : bool;
    settled : option Settlement }.

Definition initial : State :=
  {| responses := []; interval := true; settled := None |}.

Definition clearInterval (st : State) : State :=
  {| responses := responses st; interval := false; settled := settled st |}.

(** [resolve(responses)]: a promise settles once, later calls change nothing. *)
Definition resolve (now : Z) (st : State) : State :=
  match settled st with
  | Some _ => st
  | None =>
      {| responses := responses st;
         interval := interval st;
         settled := Some {| settledAt := now; settledWith := responses st |} |}
  end.

Section Call.
(** The arguments of one call and the reading of [Date.now()] at its start. *)
Variable sessionId : value.
Variable options : Options.
Variable startTime : Z.

(** [const { timeout = 60000, minResponses = 1, maxResponses = Infinity } = options]. *)
Definition timeout_of : Z := default 60000 (timeout options).
Definition minResponses_of : Z := default 1 (minResponses options).
Definition maxResponses_of : bound := default Infinity (maxResponses options).

(** The interval callback:
    [const elapsed = Date.now() - startTime;
     if (elapsed >= timeout) { clearInterval(interval); resolve(responses); }
     if (responses.length >= minResponses &&
         responses.length >= maxResponses) {
       clearInterval(interval); resolve(responses); }].
    The first branch does not return, the second test runs after it. *)
Definition enough (st : State) : bool :=
  length_ge (length (responses st)) (Finite minResponses_of)
  && length_ge (length (responses st)) maxResponses_of.

Definition on_interval (now : Z) (st : State) : State :=
  let elapsed := now - startTime in
  let st1 :=
    if bool_decide (timeout_of ≤ elapsed) then resolve now (clearInterval st)
    else st in
  if enough st1 then resolve now (clearInterval st1) else st1.

(** The consumer callback:
    [if (result.sessionId === sessionId) { responses.push(result); }].
    Nothing cancels the consumer, it runs after the promise has settled too. *)
Definition on_result (result : Response) (st : State) : State :=
  if strict_eq (Routing.sessionId result) sessionId
  then {| responses := responses st ++ [result];
          interval := interval st;
          settled := settled st |}
  else st.

Definition step (st : State) (e : Event) : State :=
  match e with
  | Tick now => if interval st then on_interval now st else st
  | Result r => on_result r st
  end.

(** [collectResponses(sessionId, options)] over the events that follow the
    call; [settled] of the outcome is what the caller's [await] receives. *)
Definition run (st : State) (events : list Event) : State :=
  foldl step st events.

Definition collectResponses (events : list Event) : State := run initial events.

End Call.

(** The interval is set exactly as long as the promise is pending. *)
Definition pending (st : State) : Prop :=
  interval st = true ∧ settled st = None.

Definition coherent (st : State) : Prop :=
  pending st ∨ (interval st = false ∧ is_Some (settled st)).

(** The messages of [agent.results] among the events, in arrival order. *)
Definition arrivals (events : list Event) : list Response :=
  omap (λ e, match e with Result r => Some r | Tick _ => None end) events.

(** ** Collecting task results (skills/rabbitmq-ops, Handle Incomplete Results) *)

(** A message of [agent.results] as [collectWithTimeout] reads it: [msg.result]. *)
Record ResultMessage : Type := { result : string }.

(** The object [collectWithTimeout] resolves with; the complete one has the
    fields [complete] and [results] only. *)
Record Outcome : Type :=
  { complete : bool;
    received : option Z;
    expected : option Z;
    results : list string;
    missing : option Z }.

(** The timeout callback fires, or a message arrives. *)
Inductive TEvent : Type :=
| Timer
| Message (msg : ResultMessage).

(** The closure of one call: the [results] array, whether the timeout is
    still pending, and the promise.  [resolved] is the object the promise was
    resolved with, as the caller reads it now: its [results] field is the
    array of the closure itself, not a copy. *)
Record TState : Type :=
  { collected : list string;
    timeoutId : bool;
    resolved : option Outcome }.

(** What a push onto the array shows in an object that holds the array. *)
Definition alias (pushed : list string) (o : Outcome) : Outcome :=
  {| complete := complete o;
     received := received o;
     expected := expected o;
     results := pushed;
     missing := missing o |}.

Definition tinitial : TState :=
  {| collected := []; timeoutId := true; resolved := None |}.

Definition tresolve (o : Outcome) (st : TState) : TState :=
  match resolved st with
  | Some _ => st
  | None =>
      {| collected := collected st; timeoutId := timeoutId st; resolved := Some o |}
  end.

Section TCall.
Variable taskCount : Z.

(** [setTimeout(() => { resolve({ complete: false, received: results.length,
      expected: taskCount, results: results,
      missing: taskCount - results.length }); }, timeout)];
    a timeout fires once. *)
Definition on_timer (st : TState) : TState :=
  let n := Z.of_nat (length (collected st)) in
  tresolve
    {| complete := false;
       received := Some n;
       expected := Some taskCount;
       results := collected st;
       missing := Some (taskCount - n) |}
    {| collected := collected st; timeoutId := false; resolved := resolved st |}.

(** [results.push(msg.result);
     if (results.length === taskCount) {
       clearTimeout(timeoutId);
       resolve({ complete: true, results: results }); }].
    Nothing cancels the consumer: it runs after the promise has resolved
    too, and its push then shows in the object the caller was handed. *)
Definition on_message (msg : ResultMessage) (st : TState) : TState :=
  let pushed := (collected st ++ [result msg])%list in
  let st1 :=
    {| collected := pushed;
       timeoutId := timeoutId st;
       resolved := alias pushed <$> resolved st |} in
  if bool_decide (Z.of_nat (length pushed) = taskCount)
  then tresolve
         {| complete := true; received := None; expected := None;
            results := pushed; missing := None |}
         {| collected := pushed; timeoutId := false; resolved := resolved st1 |}
  else st1.

Definition tstep (st : TState) (e : TEvent) : TState :=
  match e with
  | Timer => if timeoutId st then on_timer st else st
  | Message m => on_message m st
  end.

Definition collectWithTimeout (events : list TEvent) : TState :=
  foldl tstep tinitial events.

End TCall.

End Collector.

(** ** The retry handler of the task consumer (skills/task-distribution, Automatic Retry) *)

Module Retry.

(** The fields of [msg.task] the handler touches; [retryCount] is
    [undefined] ([None]) or an integer. *)
Record Task : Type := { taskId : string; retryCount : option Z }.

(** The control the handler answers a delivery with. *)
Inductive Control : Type :=
| Ack
| Nack (requeue : bool)
| Reject.

#[export] Instance Control_eq_dec : EqDecision Control.
Proof. solve_decision. Defined.

(** How [await executeTask(task)] ends. *)
Inductive Execution : Type :=
| Returns
| Throws.

(** [try { await executeTask(task); ack(); }
     catch (error) {
       if (task.retryCount > 0) { task.retryCount--; nack(true); }
       else { reject(); } }];
    [undefined > 0] is false. *)
Definition handler (e : Execution) (task : Task) : Task * Control :=
  match e with
  | Returns => (task, Ack)
  | Throws =>
      match retryCount task with
      | Some n =>
          if bool_decide (0 < n)
          then ({| taskId := taskId task; retryCount := Some (n - 1) |}, Nack true)
          else (task, Reject)
      | None => (task, Reject)
      end
  end.

(** Where the broker leaves a task. *)
Inductive Fate : Type :=
| Completed
| DeadLettered
| Queued.

(** Modelled from the spec: the broker and [consumeTasks] are not among the
    sources.  After the spec's task state machine ([queued -> delivered ->
    acked -> completed | nacked -> queued, attempt+1 | rejected ->
    dead-lettered]) and its rule that attempt counters live in the broker's
    message envelope only, a nack with requeue puts the message back as the
    broker holds it, that is as it was published, and advances the delivery
    count; an ack completes the task, a reject or a nack without requeue
    dead-letters it.  [nack(true)] carries no task: what the handler did to
    the copy it parsed for one delivery stays with that delivery.
    [executeTask n] tells how the [n]-th delivery ends; [fuel] bounds the
    deliveries that are observed.  The result gives, for each delivery, the
    handler's copy of the task as the handler left it and the control it
    answered with, and where the broker leaves the task. *)
Fixpoint deliveries (fuel : nat) (executeTask : nat → Execution) (attempt : nat)
    (task : Task) : list (Task * Control) * Fate :=
  match fuel with
  | O => ([], Queued)
  | S fuel' =>
      let (task', c) := handler (executeTask attempt) task in
      match c with
      | Ack => ([(task', Ack)], Completed)
      | Reject => ([(task', Reject)], DeadLettered)
      | Nack false => ([(task', Nack false)], DeadLettered)
      | Nack true =>
          let (ds, f) := deliveries fuel' executeTask (S attempt) task in
          ((task', Nack true) :: ds, f)
      end
  end.

Definition always_throws : nat → Execution := λ _, Throws.

(** The handler of scenario D: throws on the deliveries before the [k]-th. *)
Definition throws_before (k : nat) : nat → Execution :=
  λ n, if bool_decide (n < k)%nat then Throws else Returns.

End Retry.

(** ** The work queue *)

Module WorkQueue.

Record Task : Type := { id : string; priority : Z }.

(** Modelled from the spec: the work queue is kept by the broker, the sources
    only declare it with [x-max-priority] and send with a [priority] option.
    After the spec's [publish] contract (higher priority is delivered first,
    ties broken by arrival order) the queue is the list of undelivered tasks
    in arrival order, and a delivery takes the earliest task among those of
    the highest priority. *)
Definition publish (t : Task) (q : list Task) : list Task := q ++ [t].

Fixpoint deliver (q : list Task) : option (Task * list Task) :=
  match q with
  | [] => None
  | t :: q' =>
      match deliver q' with
      | None => Some (t, [])
      | Some (u, rest) =>
          if bool_decide (priority u ≤ priority t)
          then Some (t, q')
          else Some (u, t :: rest)
      end
  end.

(** A single consumer with prefetch 1 that acknowledges each task before the
    next is delivered, observed for [n] deliveries. *)
Fixpoint consume (n : nat) (q : list Task) : list Task :=
  match n with
  | O => []
  | S n' =>
      match deliver q with
      | None => []
      | Some (t, rest) => t :: consume n' rest
      end
  end.

Definition drain (q : list Task) : list Task := consume (length q) q.

End WorkQueue.

(** ** Sample data for the concrete runs *)

Module Scenario.
Import JS Routing Collector.

Definition response (session agent idea : string) (at_ : Z) : Response :=
  {| sessionId := VString session; from := VString agent;
     suggestion := idea; timestamp := at_; type := "brainstorm_response" |}.

(** Three collaborators answer session [s1], one answers session [s2]. *)
Definition r1 : Response := response "s1" "agent-2" "cache the lookups" 100.
Definition r2 : Response := response "s1" "agent-3" "add an index" 250.
Definition r3 : Response := response "s1" "agent-4" "use a read replica" 400.
Definition other : Response := response "s2" "agent-3" "split the service" 300.

(** [collectResponses(sessionId, { timeout, minResponses })]. *)
Definition options (timeout_ms min : Z) : Options :=
  {| timeout := Some timeout_ms; minResponses := Some min; maxResponses := None |}.

(** The interval callbacks of the first [n] seconds after a start at 0. *)
Definition ticks (n : nat) : list Event :=
  (λ k : nat, Tick (1000 * Z.of_nat k)) <$> seq 1 n.

End Scenario.

(** ** The constructors before the identity fix (lessons learned, lesson 4; ADR-004) *)

Module Legacy.
Import JS Identity.

Section Generator.
Variable rng : Type.
Variable uuidv4 : rng → string * rng.

(** rabbitmq-client.js before the fix:
    [constructor(config = {}) {
       this.agentId = process.env.AGENT_ID || `agent-${uuidv4()}`; }]. *)
Definition old_RabbitMQClient (config : Config) (env : Env) (g : rng)
  : RabbitMQClient * rng :=
  let (id, g') := or_else (env_value (AGENT_ID env)) (generate uuidv4) g in
  ({| agentId := id |}, g').

(** orchestrator.js before the fix:
    [constructor(name) { this.agentId = `agent-${uuidv4()}`; }] and then
    [this.client = new RabbitMQClient({ agentId: this.agentId })]. *)
Definition old_AgentOrchestrator (env : Env) (g : rng) : Orchestrator * rng :=
  let '(id, g1) := generate uuidv4 g in
  let '(c, g2) := old_RabbitMQClient {| cfg_agentId := id |} env g1 in
  ({| orch_agentId := id; client := c |}, g2).

End Generator.

Arguments old_RabbitMQClient {rng} uuidv4 config env g.
Arguments old_AgentOrchestrator {rng} uuidv4 env g.

End Legacy.

(** ** What the roles consume (ADR-002, leader consumption; change 6, worker) *)

Module Consumers.
Import JS Identity Routing.

(** [startLeader]:
    [await this.client.consumeResults('agent.results', this.handleResult.bind(this));
     const leaderResultQueue = await this.client.setupBrainstormResultQueue();
     await this.client.consumeResults(leaderResultQueue, this.handleResult.bind(this));]
    The queues [handleResult] is bound to, and the channel after the set-up. *)
Definition startLeader (c : RabbitMQClient) (ch : Channel) : list string * Channel :=
  let (leaderResultQueue, ch') := setupBrainstormResultQueue c ch in
  (["agent.results"; leaderResultQueue], ch').

(** [startWorker]:
    [const resultQueue = await this.client.setupBrainstormResultQueue();
     await this.client.consumeResults(resultQueue, this.handleResult.bind(this));]. *)
Definition startWorker (c : RabbitMQClient) (ch : Channel) : list string * Channel :=
  let (resultQueue, ch') := setupBrainstormResultQueue c ch in
  ([resultQueue], ch').

(** The responses [handleResult] is called with by the sole consumer of the
    queues [consumed]: one call for each message sent to one of them. *)
Definition handled (consumed : list string) (ch : Channel) : list Response :=
  (filter (λ p, p.1 ∈ consumed) (sent ch)).*2.

End Consumers.

(** ** Routing results by type (lessons learned, solution 3) *)

Module Solution3.
Import JS Identity Routing.

(** [async setupBrainstormResultQueue() {
       const queueName = 'agent.brainstorm.results';
       await this.channel.assertQueue(queueName, { durable: true });
       return queueName; }];
    options that are not given are false. *)
Definition setupBrainstormResultQueue (ch : Channel) : string * Channel :=
  let queueName := "agent.brainstorm.results" in
  (queueName,
   assertQueue queueName
     {| exclusive := false; autoDelete := false; durable := true |} ch).

(** [async publishResult(result) {
       const queueName = result.type === 'brainstorm_response'
         ? 'agent.brainstorm.results' : 'agent.results';
       await this.client.publishToQueue(queueName, result); }]. *)
Definition publishResult (result : Response) (ch : Channel) : Channel :=
  let queueName :=
    if bool_decide (type result = "brainstorm_response")
    then "agent.brainstorm.results" else "agent.results" in
  sendToQueue queueName result ch.

End Solution3.

(** ** The circuit breaker of the task consumer (skills/task-distribution, Circuit Breaker) *)

Module Breaker.
Import Retry.

(** [const failureThreshold = 5]. *)
Definition failureThreshold : nat := 5.

(** [consecutiveFailures], whether the consumer is still subscribed, and the
    status events published so far. *)
Record State : Type :=
  { consecutiveFailures : nat;
    consuming : bool;
    published : list (string * string) }.

Definition initial : State :=
  {| consecutiveFailures := 0; consuming := true; published := [] |}.

(** A delivery is answered with a control, or left unacknowledged. *)
Inductive Answer : Type :=
| Answered (c : Control)
| Unanswered.

#[export] Instance Answer_eq_dec : EqDecision Answer.
Proof. solve_decision. Defined.

(** [try { await executeTask(msg.task); consecutiveFailures = 0; ack(); }
     catch (error) {
       consecutiveFailures++;
       if (consecutiveFailures >= failureThreshold) {
         await channel.cancel(consumerTag);
         await publishStatus({ event: 'circuit_breaker_open', ... },
                             'agent.status.error');
       } else { nack(true); } }]. *)
Definition handler (e : Execution) (st : State) : State * Answer :=
  match e with
  | Returns =>
      ({| consecutiveFailures := 0; consuming := consuming st;
          published := published st |}, Answered Ack)
  | Throws =>
      let n := S (consecutiveFailures st) in
      if bool_decide (failureThreshold ≤ n)%nat
      then ({| consecutiveFailures := n; consuming := false;
               published := published st
                            ++ [("agent.status.error", "circuit_breaker_open")] |},
            Unanswered)
      else ({| consecutiveFailures := n; consuming := consuming st;
               published := published st |}, Answered (Nack true))
  end.

(** The deliveries a consumer with prefetch 1 handles: [outcomes] tells how
    [executeTask] ends for each task the broker has for it; a cancelled
    consumer is delivered nothing more. *)
Fixpoint consume (st : State) (outcomes : list Execution) : State * list Answer :=
  match outcomes with
  | [] => (st, [])
  | e :: rest =>
      if consuming st
      then let (st', a) := handler e st in
           let (st'', answers) := consume st' rest in
           (st'', a :: answers)
      else (st, [])
  end.

End Breaker.

(** ** Aggregating results (skills/rabbitmq-ops, Result Aggregation) *)

Module Aggregation.

(** A JavaScript [Map] from task ids to results: the entries in the order
    their keys were first set. *)
Fixpoint map_set (taskId result : string) (m : list (string * string))
  : list (string * string) :=
  match m with
  | [] => [(taskId, result)]
  | (k, v) :: rest =>
      if decide (k = taskId) then (k, result) :: rest
      else (k, v) :: map_set taskId result rest
  end.

(** The closure of one call of [collectAllResults]: the map and the promise. *)
Record AllState : Type :=
  { results : list (string * string); resolved : option (list string) }.

(** [client.consumeResults('agent.results', async (msg) => {
       const { taskId, result } = msg.result;
       results.set(taskId, result);
       if (results.size === taskIds.length) {
         resolve(Array.from(results.values())); } })]. *)
Definition on_result (taskIds : list string) (st : AllState)
    (msg : string * string) : AllState :=
  let results' := map_set msg.1 msg.2 (results st) in
  {| results := results';
     resolved :=
       if bool_decide (length results' = length taskIds)
       then match resolved st with
            | Some v => Some v
            | None => Some results'.*2
            end
       else resolved st |}.

Definition collectAllResults (taskIds : list string)
    (msgs : list (string * string)) : AllState :=
  foldl (on_result taskIds) {| results := []; resolved := None |} msgs.

Section Deduplicate.
(** [generateResultKey] hashes a normal form of the result; the hash is not
    among the sources and is a parameter here. *)
Context {Result Key : Type} `{Countable Key}.
Variable generateResultKey : Result → Key.

(** [const seen = new Set(); const unique = [];
     for (const result of results) {
       const key = generateResultKey(result);
       if (!seen.has(key)) { seen.add(key); unique.push(result); } }
     return unique;]. *)
Definition dedup_step (st : gset Key * list Result) (result : Result)
  : gset Key * list Result :=
  let key := generateResultKey result in
  if decide (key ∈ st.1) then st else ({[key]} ∪ st.1, st.2 ++ [result]).

Definition deduplicateResults (results : list Result) : list Result :=
  (foldl dedup_step (∅, []) results).2.

End Deduplicate.

End Aggregation.

(** ** Waiting for the agents (skills/collaboration, Synchronization Barriers) *)

Module Barrier.

(** What the event loop runs after the subscription: a status message of
    [agent.status.ready], with its [agentId], or the end of a [sleep(1000)],
    after which the loop tests its condition again. *)
Inductive Event : Type :=
| Status (agentId : string)
| Woken.

(** The [ready] set and whether the call has returned. *)
Record State : Type := { ready : gset string; returned : bool }.

Section Call.
Variable requiredAgents : list string.

(** [(status) => { if (requiredAgents.includes(status.agentId)) {
       ready.add(status.agentId); } }]. *)
Definition on_status (agentId : string) (st : State) : State :=
  if decide (agentId ∈ requiredAgents)
  then {| ready := {[agentId]} ∪ ready st; returned := returned st |}
  else st.

(** [while (ready.size < requiredAgents.length) { await sleep(1000); }]:
    one test of the condition. *)
Definition test (st : State) : State :=
  if bool_decide (size (ready st) < length requiredAgents)%nat
  then st
  else {| ready := ready st; returned := true |}.

Definition step (st : State) (e : Event) : State :=
  match e with
  | Status a => on_status a st
  | Woken => if returned st then st else test st
  end.

(** [waitForAllAgents(requiredAgents)]: the subscription, the first test of
    the loop condition, then the events. *)
Definition waitForAllAgents (events : list Event) : State :=
  foldl step (test {| ready := ∅; returned := false |}) events.

End Call.

(** The agents whose status has arrived. *)
Definition reported (events : list Event) : list string :=
  omap (λ e, match e with Status a => Some a | Woken => None end) events.

End Barrier.

(** ** Validating a task configuration (testing strategy, pure function example) *)

Module Validators.

(** A JavaScript number: not a number, an infinity, or a finite double
    [m * 2^e]; both zeros have [m = 0]. *)
Inductive number : Type :=
| NaN
| Infinite (negative : bool)
| Finite (m e : Z).

(** The values that are not objects. *)
Inductive primitive : Type :=
| Undefined
| Null
| Boolean (b : bool)
| Number (n : number)
| BigInt (z : Z)
| String (s : string)
| Symbol.

Record Verdict : Type := { valid : bool; error : option string }.

(** A call returns a verdict or throws. *)
Inductive Outcome : Type :=
| Returned (v : Verdict)
| Thrown.

Section Values.
(** The objects, and the two conversions of the language that the
    comparison [config.timeout < 0] goes through: [ToPrimitive] with hint
    number of an object, which gives a primitive or throws ([None]), and
    [StringToNumber].  They are parameters here. *)
Context {object : Type}.
Variable ToPrimitive : object → option primitive.
Variable StringToNumber : string → number.

Inductive value : Type :=
| Primitive (p : primitive)
| Object (o : object).

(** The argument of [validateTaskConfig] by what reading its properties
    gives: [undefined] and [null] throw at the first read; every other value
    has [config.type] and [config.timeout], [undefined] for a property it
    lacks. *)
Inductive Config : Type :=
| Nullish
| Fields (type timeout : value).

(** [ToBoolean], which [!x] negates. *)
Definition ToBoolean (v : value) : bool :=
  match v with
  | Primitive Undefined | Primitive Null => false
  | Primitive (Boolean b) => b
  | Primitive (Number NaN) => false
  | Primitive (Number (Infinite _)) => true
  | Primitive (Number (Finite m _)) => bool_decide (m ≠ 0)
  | Primitive (BigInt z) => bool_decide (z ≠ 0)
  | Primitive (String s) => bool_decide (s ≠ "")
  | Primitive Symbol => true
  | Object _ => true
  end.

(** [n < 0] for a number [n]; a comparison with [NaN] is false. *)
Definition negative (n : number) : bool :=
  match n with
  | NaN => false
  | Infinite neg => neg
  | Finite m _ => bool_decide (m < 0)
  end.

(** [p < 0] for a primitive [p]: [undefined] converts to [NaN], [null] and
    [false] to [0], [true] to [1], a string through [StringToNumber]; a
    BigInt is compared by its value; a symbol throws a TypeError ([None]). *)
Definition lt_zero_primitive (p : primitive) : option bool :=
  match p with
  | Undefined | Null | Boolean _ => Some false
  | Number n => Some (negative n)
  | BigInt z => Some (bool_decide (z < 0))
  | String s => Some (negative (StringToNumber s))
  | Symbol => None
  end.

(** [v < 0]: an object is converted with [ToPrimitive] first. *)
Definition lt_zero (v : value) : option bool :=
  match v with
  | Primitive p => lt_zero_primitive p
  | Object o =>
      match ToPrimitive o with
      | Some p => lt_zero_primitive p
      | None => None
      end
  end.

(** [export function validateTaskConfig(config) {
       if (!config.type) return { valid: false, error: 'Missing type' };
       if (!config.timeout || config.timeout < 0) {
         return { valid: false, error: 'Invalid timeout' }; }
       return { valid: true }; }];
    [||] evaluates the comparison only if [!config.timeout] is false. *)
Definition validateTaskConfig (config : Config) : Outcome :=
  match config with
  | Nullish => Thrown
  | Fields type timeout =>
      if negb (ToBoolean type)
      then Returned {| valid := false; error := Some "Missing type" |}
      else if negb (ToBoolean timeout)
      then Returned {| valid := false; error := Some "Invalid timeout" |}
      else match lt_zero timeout with
           | None => Thrown
           | Some true => Returned {| valid := false; error := Some "Invalid timeout" |}
           | Some false => Returned {| valid := true; error := None |}
           end
  end.

End Values.

Arguments value : clear implicits.
Arguments Config : clear implicits.

End Validators.

(** ** The helpers of the integration tests (tests/integration/setup.js) *)

Module Harness.
Import JS Identity.

Section Generator.
Variable rng : Type.
Variable uuidv4 : rng → string * rng.

(** [createTestClient(agentId = 'test-agent') {
       return new RabbitMQClient({ url: RABBITMQ_URL, agentId,
                                   autoReconnect: false }); }]. *)
Definition createTestClient (agentId : value) (env : Env) (g : rng)
  : RabbitMQClient * rng :=
  let agentId := param_default (VString "test-agent") agentId in
  new_RabbitMQClient uuidv4 {| cfg_agentId := agentId |} env g.

End Generator.

Arguments createTestClient {rng} uuidv4 agentId env g.

(** How [waitForRabbitMQ] ends, the connections it attempted and the
    number of times it slept for [delayMs]. *)
Record Waited : Type := { ready : bool; attempts : nat; sleeps : nat }.

(** [for (let i = 0; i < maxAttempts; i++) {
       try { ...; await testClient.connect(); await testClient.close();
             return; }
       catch (error) { await new Promise(resolve => setTimeout(resolve, delayMs)); } }
     throw new Error('RabbitMQ failed to become ready in time');]
    [connects i] tells whether the body of the [try] of round [i] goes
    through; [remaining] is the number of rounds left. *)
Fixpoint attempt (connects : nat → bool) (remaining i : nat) : Waited :=
  match remaining with
  | O => {| ready := false; attempts := i; sleeps := i |}
  | S remaining' =>
      if connects i
      then {| ready := true; attempts := S i; sleeps := i |}
      else attempt connects remaining' (S i)
  end.

(** [async waitForRabbitMQ(maxAttempts = 30, delayMs = 1000)]. *)
Definition waitForRabbitMQ (maxAttempts : option Z) (connects : nat → bool)
  : Waited :=
  attempt connects (Z.to_nat (default 30 maxAttempts)) 0.

(** [export async function waitForCondition(conditionFn, timeoutMs = 5000,
                                            checkIntervalMs = 100) {
       const startTime = Date.now();
       while (Date.now() - startTime < timeoutMs) {
         if (await conditionFn()) { return true; }
         await new Promise(resolve => setTimeout(resolve, checkIntervalMs)); }
       return false; }]
    Each round reads the clock and, if the time is not up, evaluates the
    condition; [rounds] gives for each round the reading and what the
    condition would return.  The result is [None] while the loop is still
    running at the end of [rounds]; the number is the count of evaluations
    of the condition. *)
Fixpoint poll (startTime timeoutMs : Z) (rounds : list (Z * bool))
  : option bool * nat :=
  match rounds with
  | [] => (None, O)
  | (now, holds) :: rest =>
      if bool_decide (now - startTime < timeoutMs)
      then if holds then (Some true, 1%nat)
           else let (r, n) := poll startTime timeoutMs rest in (r, S n)
      else (Some false, O)
  end.

Definition waitForCondition (timeoutMs : option Z) (startTime : Z)
    (rounds : list (Z * bool)) : option bool * nat :=
  poll startTime (default 5000 timeoutMs) rounds.

End Harness.

(** ** Spreading tasks over a pool of channels (skills/task-distribution, Connection Pooling) *)

Module Pool.

(** [let channelIndex = 0;
     for (const task of tasks) {
       const channel = channels[channelIndex % channels.length];
       await channel.sendToQueue('agent.tasks', task);
       channelIndex++; }]
    for a pool of [channels] channels: the index of the channel each task is
    sent on, or [None] when [channels[...]] is [undefined] and the call of
    [sendToQueue] on it throws, which is the case of an empty pool
    ([n % 0] is [NaN]). *)
Fixpoint distribute {Task : Type} (channels : nat) (channelIndex : nat)
    (tasks : list Task) : option (list (nat * Task)) :=
  match tasks with
  | [] => Some []
  | task :: rest =>
      if decide (channels = 0%nat) then None
      else (λ sent, ((channelIndex `mod` channels)%nat, task) :: sent)
             <$> distribute channels (S channelIndex) rest
  end.

(** The tasks sent on channel [c]. *)
Definition load {Task : Type} (c : nat) (sent : list (nat * Task)) : list Task :=
  (filter (λ p, p.1 = c) sent).*2.

End Pool.

(** ** The rounds of a discussion (skills/collaboration, Implementing Rounds) *)

Module Rounds.
Import JS Routing Collector.

(** The object literal [multiRoundBrainstorm] builds in each round:
    [{ sessionId: generateSessionId(), timeout: 60000, minResponses: 3 }]. *)
Record Literal : Type :=
  { l_sessionId : value; l_timeout : Z; l_minResponses : Z }.

(** What a caller passes as the first argument of [collectResponses]: a
    value of the fragment, or an object literal, a reference that nothing
    else holds. *)
Inductive Argument : Type :=
| Plain (v : value)
| Object (o : Literal).

(** [result.sessionId === sessionId], the left side read from a message:
    strict equality with an object is equality of references. *)
Definition same (x : value) (a : Argument) : bool :=
  match a with
  | Plain v => strict_eq x v
  | Object _ => false
  end.

Section Call.
Variable sessionId : Argument.
Variable options : option Options.
Variable startTime : Z.

(** [options = {}]. *)
Definition options_of : Options :=
  default {| timeout := None; minResponses := None; maxResponses := None |}
    options.

(** [if (result.sessionId === sessionId) { responses.push(result); }]. *)
Definition on_result (result : Response) (st : State) : State :=
  if same (Routing.sessionId result) sessionId
  then {| responses := responses st ++ [result];
          interval := interval st;
          settled := settled st |}
  else st.

Definition step (st : State) (e : Event) : State :=
  match e with
  | Tick now => if interval st then on_interval options_of startTime now st else st
  | Result r => on_result r st
  end.

Definition run (st : State) (events : list Event) : State :=
  foldl step st events.

(** [collectResponses(sessionId, options = {})] for any first argument. *)
Definition collectResponses (events : list Event) : State := run initial events.

End Call.

(** The call of each round:
    [const responses = await collectResponses({
       sessionId: generateSessionId(), timeout: 60000, minResponses: 3 });]
    the literal is the only argument; [generated] is what
    [generateSessionId()] returned. *)
Definition collectRound (generated : value) (startTime : Z)
    (events : list Event) : State :=
  collectResponses
    (Object {| l_sessionId := generated; l_timeout := 60000; l_minResponses := 3 |})
    None startTime events.

End Rounds.

(** * Properties *)

(** ** JavaScript values *)

Section ValueFacts.
Import JS.

Lemma truthy_string v : truthy v = true → ∃ s, v = VString s ∧ s ≠ "".
Proof.
  destruct v as [| |s]; simpl; try discriminate.
  intros H. exists s. split; [reflexivity|]. by apply bool_decide_eq_true in H.
Qed.

Lemma truthy_VString s : s ≠ "" → truthy (VString s) = true.
Proof. intros H. simpl. by apply bool_decide_eq_true. Qed.

Lemma falsy_cases v :
  truthy v = false ↔ v = VUndefined ∨ v = VNull ∨ v = VString "".
Proof.
  destruct v as [| |s]; simpl.
  - naive_solver.
  - naive_solver.
  - rewrite bool_decide_eq_false. split.
    + intros H. right. right. f_equal. by destruct (decide (s = "")).
    + intros [?|[?|[= ->]]]; try discriminate. tauto.
Qed.

Lemma strict_eq_true a b : strict_eq a b = true ↔ a = b.
Proof. unfold strict_eq. apply bool_decide_eq_true. Qed.

End ValueFacts.

(** ** Agent identity *)

Section IdentityFacts.
Import JS Identity.
Context {rng : Type} (uuidv4 : rng → string * rng).

Lemma supplied_truthy v : supplied v ↔ truthy v = true.
Proof.
  split.
  - intros (s & -> & Hs). by apply truthy_VString.
  - apply truthy_string.
Qed.

Lemma generate_supplied g : supplied (generate uuidv4 g).1.
Proof.
  unfold generate. destruct (uuidv4 g) as [u g']. simpl.
  exists ("agent-" +:+ u). split; [reflexivity|]. discriminate.
Qed.

Lemma or_else_truthy {S : Type} a (b : S → value * S) s :
  truthy a = true → or_else a b s = (a, s).
Proof. intros H. unfold or_else. by rewrite H. Qed.

Lemma or_else_falsy {S : Type} a (b : S → value * S) s :
  truthy a = false → or_else a b s = b s.
Proof. intros H. unfold or_else. by rewrite H. Qed.

Lemma or_else_supplied {S : Type} a (b : S → value * S) s :
  supplied (b s).1 → supplied (or_else a b s).1.
Proof.
  intros Hb. unfold or_else. destruct (truthy a) eqn:Ha; [|done].
  by apply supplied_truthy.
Qed.

Lemma not_supplied_falsy v : ¬ supplied v → truthy v = false.
Proof.
  intros H. destruct (truthy v) eqn:Hv; [|done].
  exfalso. by apply H, supplied_truthy.
Qed.

(** The constructor leaves a non-empty string in [agentId], whatever it is given. *)
Lemma new_RabbitMQClient_supplied config env g :
  supplied (agentId (new_RabbitMQClient uuidv4 config env g).1).
Proof.
  unfold new_RabbitMQClient.
  pose proof (or_else_supplied (cfg_agentId config)
                (or_else (env_value (AGENT_ID env)) (generate uuidv4)) g
                (or_else_supplied _ _ g (generate_supplied g))) as H.
  by destruct (or_else _ _ g) as [id g'].
Qed.

(** C1. The identifier the [RabbitMQClient] constructor resolves is the
    value of [config.agentId] when that is a non-empty string; otherwise the
    value of [AGENT_ID] when that is set and non-empty; otherwise
    ["agent-"] followed by a uuid drawn from the random source, which is
    advanced in this last case only.  In every case the constructor returns,
    and the identifier is a non-empty string. *)
Theorem agentId_resolution (config : Config) (env : Env) (g : rng) :
  let r := new_RabbitMQClient uuidv4 config env g in
  (∀ x, cfg_agentId config = VString x → x ≠ "" →
        r = ({| agentId := VString x |}, g))
  ∧ (¬ supplied (cfg_agentId config) →
     ∀ e, AGENT_ID env = Some e → e ≠ "" →
          r = ({| agentId := VString e |}, g))
  ∧ (¬ supplied (cfg_agentId config) →
     AGENT_ID env = None ∨ AGENT_ID env = Some "" →
     r = ({| agentId := VString ("agent-" +:+ (uuidv4 g).1) |}, (uuidv4 g).2))
  ∧ supplied (agentId r.1).
Proof.
  intros r. subst r. unfold new_RabbitMQClient. split_and!.
  - intros x Hx Hne.
    rewrite or_else_truthy; [by rewrite Hx|].
    rewrite Hx. by apply truthy_VString.
  - intros Hc e He Hne.
    rewrite or_else_falsy by by apply not_supplied_falsy.
    rewrite or_else_truthy; rewrite He; [done | by apply truthy_VString].
  - intros Hc He.
    rewrite or_else_falsy by by apply not_supplied_falsy.
    rewrite or_else_falsy by (by destruct He as [-> | ->]).
    unfold generate. by destruct (uuidv4 g) as [u g'].
  - apply new_RabbitMQClient_supplied.
Qed.

(** The orchestrator and the client it builds hold the same identifier. *)
Lemma orchestrator_client_same_id config env g :
  let o := (new_Orchestrator uuidv4 config env g).1 in
  agentId (client o) = orch_agentId o ∧ supplied (orch_agentId o).
Proof.
  unfold new_Orchestrator.
  pose proof (or_else_supplied (cfg_agentId config) (generate uuidv4) g
                (generate_supplied g)) as Hs.
  destruct (or_else (cfg_agentId config) (generate uuidv4) g) as [id g1].
  simpl in Hs. unfold new_RabbitMQClient. simpl cfg_agentId.
  rewrite or_else_truthy by by apply supplied_truthy.
  by split.
Qed.

End IdentityFacts.

(** ** The exclusive result queue *)

Section QueueNameFacts.
Import JS Identity Routing.

Lemma result_queue_name_not_shared id : result_queue_name id ≠ "agent.results".
Proof. unfold result_queue_name. simpl. discriminate. Qed.

Lemma destinationQueue_supplied a q :
  a ≠ "" → destinationQueue (VString a) q = "brainstorm.results." +:+ a.
Proof.
  intros Ha. unfold destinationQueue. simpl param_default.
  rewrite (truthy_VString a Ha). reflexivity.
Qed.

Lemma destinationQueue_falsy t q :
  truthy t = false → destinationQueue t q = default "agent.results" q.
Proof.
  intros Ht. unfold destinationQueue.
  destruct t as [| |s]; simpl param_default; simpl truthy; try reflexivity.
  simpl in Ht. rewrite Ht. reflexivity.
Qed.

(** The queue a client declares is the one its broadcasts name as reply
    target, and the one a targeted [publishResult] for its id sends to. *)
Lemma one_queue_name (c : RabbitMQClient) m ex ch ch' :
  supplied (agentId c) →
  let q := (setupBrainstormResultQueue c ch).1 in
  q = result_queue_name (agentId c)
  ∧ replyTo (broadcastBrainstorm c m ex ch').1 = q
  ∧ destinationQueue (b_from (broadcastBrainstorm c m ex ch').1) None = q.
Proof.
  intros (a & Ha & Hne). simpl. rewrite Ha. simpl to_template.
  repeat split. by apply destinationQueue_supplied.
Qed.

End QueueNameFacts.

Section QueueNameClaims.
Import JS Identity Routing.
Context {rng : Type} (uuidv4 : rng → string * rng).

(** C2 (as amended). For the client of every agent, with identifier [a], the
    exclusive queue that [setupBrainstormResultQueue] declares is named
    ["brainstorm.results."] followed by [a]; it is asserted exclusive,
    auto-deleted and not durable; and this same name is the [replyTo] of the
    client's broadcasts and the destination of the targeted publish a
    collaborator makes when it answers such a broadcast. *)
Theorem result_queue_named_after_agent (config : Config) (env : Env) (g : rng)
    (m : Session) (ex : option string) (ch : Channel)
    (w : Worker) (s : string) (now : Z) (ch' : Channel) :
  let c := (new_RabbitMQClient uuidv4 config env g).1 in
  let msg := (broadcastBrainstorm c m ex ch).1 in
  ∃ a, agentId c = VString a ∧ a ≠ ""
    ∧ (setupBrainstormResultQueue c ch).1 = "brainstorm.results." +:+ a
    ∧ declared (setupBrainstormResultQueue c ch).2 !! ("brainstorm.results." +:+ a)
      = Some {| exclusive := true; autoDelete := true; durable := false |}
    ∧ replyTo msg = "brainstorm.results." +:+ a
    ∧ destinationQueue (b_from msg) None = "brainstorm.results." +:+ a
    ∧ sent (handleBrainstorm w msg s now ch').2 !! length (sent ch')
      = Some ("brainstorm.results." +:+ a, build_response w msg s now).
Proof.
  intros c msg.
  destruct (new_RabbitMQClient_supplied uuidv4 config env g) as (a & Ha & Hne).
  fold c in Ha. exists a. subst msg.
  unfold setupBrainstormResultQueue, broadcastBrainstorm, handleBrainstorm,
    orchestrator_publishResult, publishResult. simpl.
  rewrite Ha. simpl to_template.
  rewrite (destinationQueue_supplied a None Hne).
  repeat split; try done.
  - apply lookup_insert_eq.
  - rewrite <- app_assoc. rewrite lookup_app_r by lia.
    by rewrite Nat.sub_diag.
Qed.

(** C3 (as amended). The queue name is a function of the agent id alone;
    two resolutions with the same non-empty explicit value give the same
    queue name, whatever the environment and the random source are; and the
    name the declaring side computes is the name the broadcasting side puts
    in [replyTo]. *)
Theorem queue_name_deterministic (x : string) (env1 env2 : Env) (g1 g2 : rng)
    (ch1 ch2 : Channel) (m : Session) (ex : option string) :
  x ≠ "" →
  let c1 := (new_RabbitMQClient uuidv4 {| cfg_agentId := VString x |} env1 g1).1 in
  let c2 := (new_RabbitMQClient uuidv4 {| cfg_agentId := VString x |} env2 g2).1 in
  (setupBrainstormResultQueue c1 ch1).1 = (setupBrainstormResultQueue c2 ch2).1
  ∧ (setupBrainstormResultQueue c1 ch1).1 = replyTo (broadcastBrainstorm c2 m ex ch2).1
  ∧ (∀ c c' : RabbitMQClient, agentId c = agentId c' →
       (setupBrainstormResultQueue c ch1).1 = (setupBrainstormResultQueue c' ch2).1
       ∧ (setupBrainstormResultQueue c ch1).1 = replyTo (broadcastBrainstorm c' m ex ch2).1).
Proof.
  intros Hx c1 c2.
  assert (agentId c1 = VString x ∧ agentId c2 = VString x) as [H1 H2].
  { subst c1 c2. unfold new_RabbitMQClient. simpl cfg_agentId.
    rewrite !or_else_truthy by by apply truthy_VString. by split. }
  unfold setupBrainstormResultQueue, broadcastBrainstorm. simpl.
  rewrite H1, H2. repeat split; intros; congruence.
Qed.

End QueueNameClaims.

Section QueueNameRuns.
Import JS Identity Routing.

(** C2, counterexample. The queue declared for the agent ["agent-1"] is
    [brainstorm.results.agent-1], not [reply.agent-1]. *)
Lemma result_queue_not_reply_prefixed :
  let c := (new_RabbitMQClient draw {| cfg_agentId := VString "agent-1" |}
              {| AGENT_ID := None |} []).1 in
  agentId c = VString "agent-1"
  ∧ (setupBrainstormResultQueue c empty_channel).1 = "brainstorm.results.agent-1"
  ∧ (setupBrainstormResultQueue c empty_channel).1 ≠ "reply." +:+ "agent-1".
Proof. repeat split. vm_compute. discriminate. Qed.

(** C3, counterexample. With the empty string as explicit value and no
    [AGENT_ID], two resolutions draw two uuids and derive two different
    queue names. *)
Lemma empty_explicit_value_not_deterministic :
  let env := {| AGENT_ID := None |} in
  let c1 := (new_RabbitMQClient draw {| cfg_agentId := VString "" |} env
               ["6f1c"; "93ab"]).1 in
  let c2 := (new_RabbitMQClient draw {| cfg_agentId := VString "" |} env
               ["93ab"]).1 in
  (setupBrainstormResultQueue c1 empty_channel).1 = "brainstorm.results.agent-6f1c"
  ∧ (setupBrainstormResultQueue c2 empty_channel).1 = "brainstorm.results.agent-93ab"
  ∧ (setupBrainstormResultQueue c1 empty_channel).1
    ≠ (setupBrainstormResultQueue c2 empty_channel).1.
Proof. repeat split. vm_compute. discriminate. Qed.

Lemma queue_name_deterministic_witness :
  "agent-7" ≠ ""
  ∧ (setupBrainstormResultQueue
       (new_RabbitMQClient draw {| cfg_agentId := VString "agent-7" |}
          {| AGENT_ID := Some "agent-env" |} ["6f1c"]).1 empty_channel).1
    = (setupBrainstormResultQueue
         (new_RabbitMQClient draw {| cfg_agentId := VString "agent-7" |}
            {| AGENT_ID := None |} ["93ab"]).1 empty_channel).1.
Proof.
  assert ("agent-7" ≠ "") as Hne by discriminate.
  split; [exact Hne|].
  exact (proj1 (queue_name_deterministic draw "agent-7"
           {| AGENT_ID := Some "agent-env" |} {| AGENT_ID := None |}
           ["6f1c"] ["93ab"] empty_channel empty_channel
           {| s_sessionId := VString "s1"; topic := "t"; question := "q" |} None
           Hne)).
Defined.

End QueueNameRuns.

(** ** Publishing results *)

Section PublishFacts.
Import JS Identity Routing.

(** C10 (as amended). [publishResult] sends the result once, and to one
    queue: to [brainstorm.results.<targetAgentId>] when [targetAgentId] is a
    non-empty string; to [queueName], which defaults to [agent.results], when
    [targetAgentId] is [null], omitted or the empty string. *)
Theorem publishResult_destination (result : Response) (targetAgentId : value)
    (queueName : option string) (ch : Channel) :
  let ch' := publishResult result targetAgentId queueName ch in
  sent ch' = (sent ch ++ [(destinationQueue targetAgentId queueName, result)])%list
  ∧ declared ch' = declared ch
  ∧ fanned ch' = fanned ch
  ∧ (∀ a, targetAgentId = VString a → a ≠ "" →
       destinationQueue targetAgentId queueName = "brainstorm.results." +:+ a)
  ∧ (targetAgentId = VNull ∨ targetAgentId = VUndefined ∨ targetAgentId = VString "" →
     destinationQueue targetAgentId queueName = default "agent.results" queueName)
  ∧ destinationQueue targetAgentId queueName ∈
      ["brainstorm.results." +:+ to_template targetAgentId;
       default "agent.results" queueName].
Proof.
  simpl. repeat split.
  - intros a -> Ha. by apply destinationQueue_supplied.
  - intros H. apply destinationQueue_falsy. apply falsy_cases. tauto.
  - destruct (truthy targetAgentId) eqn:Ht.
    + destruct (truthy_string _ Ht) as (a & -> & Ha).
      rewrite (destinationQueue_supplied a queueName Ha). simpl. set_solver.
    + rewrite (destinationQueue_falsy _ queueName Ht). set_solver.
Qed.

(** C10, counterexample. The empty string is not [null], yet the result goes
    to the shared queue and not to a queue [brainstorm.results.<target>]. *)
Lemma publishResult_empty_target_goes_shared :
  let r := {| sessionId := VString "s1"; from := VString "agent-2";
              suggestion := "cache"; timestamp := 0; type := "brainstorm_response" |} in
  VString "" ≠ VNull
  ∧ sent (publishResult r (VString "") None empty_channel) = [("agent.results", r)]
  ∧ destinationQueue (VString "") None ≠ "brainstorm.results." +:+ "".
Proof. repeat split; [discriminate | vm_compute; discriminate]. Qed.

End PublishFacts.

(** ** The dual publish of brainstorm responses *)

Section DualPublishFacts.
Import JS Identity Routing.

Lemma elem_of_queue_contents q r ch :
  r ∈ queue_contents q ch ↔ (q, r) ∈ sent ch.
Proof.
  unfold queue_contents. rewrite list_elem_of_fmap. split.
  - intros ([q' r'] & -> & Hin). apply list_elem_of_filter in Hin as [Hq Hin].
    simpl in *. by subst.
  - intros Hin. exists (q, r). split; [reflexivity|].
    apply list_elem_of_filter. by split.
Qed.

(** What one answer adds to the channel: two messages, the second one to
    the shared queue. *)
Lemma handleBrainstorm_sent w msg s now ch :
  sent (handleBrainstorm w msg s now ch).2
  = (sent ch ++ [(destinationQueue (b_from msg) None, build_response w msg s now);
                 ("agent.results", build_response w msg s now)])%list.
Proof.
  unfold handleBrainstorm, orchestrator_publishResult, publishResult. simpl.
  by rewrite <- app_assoc.
Qed.

(** For any broadcast that names a sender, the first of the two goes to the
    sender's exclusive queue. *)
Lemma handleBrainstorm_two_publishes w msg s now ch a :
  b_from msg = VString a → a ≠ "" →
  sent (handleBrainstorm w msg s now ch).2
  = sent ch ++ [("brainstorm.results." +:+ a, build_response w msg s now);
                ("agent.results", build_response w msg s now)].
Proof.
  intros Hfrom Ha. rewrite handleBrainstorm_sent, Hfrom.
  by rewrite (destinationQueue_supplied a None Ha).
Qed.

Lemma handleBrainstorm_mirrored w msg s now ch :
  mirrored ch → mirrored (handleBrainstorm w msg s now ch).2.
Proof.
  intros Hm q r. rewrite handleBrainstorm_sent, !elem_of_app.
  intros [Hin | Hin].
  - left. by eapply Hm.
  - right. apply elem_of_cons in Hin as [[= _ ->] | Hin];
      [| apply list_elem_of_singleton in Hin as [= _ ->]];
      apply elem_of_cons; right; by apply list_elem_of_singleton.
Qed.

Lemma answers_mirrored events : ∀ ch,
  mirrored ch → mirrored (answers events ch).
Proof.
  induction events as [| [[[w msg] s] now] rest IH]; intros ch Hm; [done|].
  cbn [answers]. by apply IH, handleBrainstorm_mirrored.
Qed.

Lemma handleBrainstorm_participated w msg s now ch :
  brainstormsParticipated (handleBrainstorm w msg s now ch).1
  = S (brainstormsParticipated w).
Proof. reflexivity. Qed.

End DualPublishFacts.

Section DualPublishClaims.
Import JS Identity Routing.
Context {rng : Type} (uuidv4 : rng → string * rng).

(** C4. A collaborator that handles a broadcast of any agent sends its
    response exactly twice: first to the exclusive queue of the initiator,
    which is the queue the initiator declares and names in [replyTo], then to
    the shared queue [agent.results]; the two queues differ.  Hence, whichever
    collaborators have answered whichever broadcasts, every response found
    on any queue is found on the shared queue too. *)
Theorem dual_publish (config : Config) (env : Env) (g : rng) (m : Session)
    (ex : option string) (ch0 : Channel)
    (w : Worker) (s : string) (now : Z) (ch : Channel) :
  let initiator := (new_RabbitMQClient uuidv4 config env g).1 in
  let msg := (broadcastBrainstorm initiator m ex ch0).1 in
  let q := (setupBrainstormResultQueue initiator ch0).1 in
  let response := build_response w msg s now in
  sent (handleBrainstorm w msg s now ch).2
  = (sent ch ++ [(q, response); ("agent.results", response)])%list
  ∧ q = replyTo msg
  ∧ q ≠ "agent.results"
  ∧ sessionId response = s_sessionId m
  ∧ from response = w_agentId w
  ∧ (∀ events q' r,
       r ∈ queue_contents q' (answers events empty_channel) →
       r ∈ queue_contents "agent.results" (answers events empty_channel)).
Proof.
  intros initiator msg q response.
  pose proof (new_RabbitMQClient_supplied uuidv4 config env g) as Hs.
  fold initiator in Hs.
  destruct (one_queue_name initiator m ex ch0 ch0 Hs) as (Hq & Hr & Hd).
  fold q in Hq, Hr, Hd. fold msg in Hr, Hd.
  split_and!.
  - rewrite handleBrainstorm_sent, Hd. reflexivity.
  - by rewrite Hr.
  - rewrite Hq. apply result_queue_name_not_shared.
  - reflexivity.
  - reflexivity.
  - intros events q' r. rewrite !elem_of_queue_contents.
    apply answers_mirrored. intros ? ? Hin. simpl in Hin. inversion Hin.
Qed.

End DualPublishClaims.

(** ** Collecting brainstorm responses *)

Section CollectResponsesFacts.
Import JS Routing Collector.
Variable sid : value.
Variable opts : Options.
Variable start : Z.

Local Abbreviation step' := (step sid opts start).
Local Abbreviation run' := (run sid opts start).
Local Abbreviation matching := (filter (λ r : Response, sessionId r = sid)).

Lemma arrivals_app a b : arrivals (a ++ b) = (arrivals a ++ arrivals b)%list.
Proof. apply omap_app. Qed.

Lemma resolve_responses now st : responses (resolve now st) = responses st.
Proof. unfold resolve. by destruct (settled st). Qed.

Lemma on_interval_responses now st :
  responses (on_interval opts start now st) = responses st.
Proof.
  unfold on_interval.
  repeat (case_match; rewrite ?resolve_responses; simpl); reflexivity.
Qed.

Lemma step_responses st e :
  responses (step' st e)
  = (responses st ++ matching (arrivals [e]))%list.
Proof.
  destruct e as [now | r]; simpl.
  - rewrite app_nil_r. case_match; [apply on_interval_responses | reflexivity].
  - unfold on_result, strict_eq. rewrite filter_cons, filter_nil.
    case_bool_decide; case_decide; try done; simpl.
    by rewrite app_nil_r.
Qed.

(** The array holds the messages of the session that have arrived, in
    arrival order, and nothing else. *)
Lemma run_responses evs : ∀ st,
  responses (run' st evs) = (responses st ++ matching (arrivals evs))%list.
Proof.
  induction evs as [| e evs IH]; intros st.
  - simpl. by rewrite app_nil_r.
  - change (run' st (e :: evs)) with (run' (step' st e) evs).
    rewrite IH, step_responses.
    change (e :: evs) with ([e] ++ evs)%list.
    by rewrite arrivals_app, filter_app, app_assoc.
Qed.

(** A promise settles once. *)
Lemma step_settled st e s : settled st = Some s → settled (step' st e) = Some s.
Proof.
  intros Hs. destruct e as [now | r]; simpl.
  - case_match; [|done]. unfold on_interval, resolve, clearInterval; simpl.
    repeat (case_match; simpl; rewrite ?Hs); try done; congruence.
  - unfold on_result. by case_match.
Qed.

Lemma run_settled evs : ∀ st s,
  settled st = Some s → settled (run' st evs) = Some s.
Proof.
  induction evs as [| e evs IH]; intros st s Hs; [done|].
  unfold run in *. simpl. apply IH. by apply step_settled.
Qed.

(** What the interval callback does to a pending call. *)
Lemma on_interval_pending now st :
  pending st →
  if bool_decide (timeout_of opts ≤ now - start) || enough opts st
  then on_interval opts start now st
       = {| responses := responses st; interval := false;
            settled := Some {| settledAt := now; settledWith := responses st |} |}
  else on_interval opts start now st = st.
Proof.
  intros [Hi Hs]. unfold on_interval.
  assert (resolve now (clearInterval st)
          = {| responses := responses st; interval := false;
               settled := Some {| settledAt := now; settledWith := responses st |} |})
    as Hr by (unfold resolve; simpl; by rewrite Hs).
  destruct (bool_decide (timeout_of opts ≤ now - start)) eqn:Ht; simpl.
  - rewrite Hr. by case_match.
  - destruct (enough opts st) eqn:He; by rewrite ?Hr.
Qed.

Lemma step_coherent st e : coherent st → coherent (step' st e).
Proof.
  intros Hc. destruct e as [now | r]; simpl.
  - destruct Hc as [Hp | [Hi Hs]].
    + pose proof (on_interval_pending now st Hp) as H.
      destruct Hp as [Hi Hs]. rewrite Hi.
      destruct (_ || _); rewrite H.
      * right. simpl. split; [done | by eexists].
      * left. by split.
    + rewrite Hi. right. by split.
  - unfold on_result. case_match; [|done].
    destruct Hc as [[Hi Hs] | [Hi Hs]]; [left | right]; by split.
Qed.

Lemma run_coherent evs : ∀ st, coherent st → coherent (run' st evs).
Proof.
  induction evs as [| e evs IH]; intros st Hc; [done|].
  unfold run in *. simpl. apply IH. by apply step_coherent.
Qed.

Lemma initial_coherent : coherent initial.
Proof. left. by split. Qed.

End CollectResponsesFacts.

Section CollectResponsesSettling.
Import JS Routing Collector.
Variable sid : value.
Variable opts : Options.
Variable start : Z.

Local Abbreviation step' := (step sid opts start).
Local Abbreviation run' := (run sid opts start).

Lemma run_snoc st evs e : run' st (evs ++ [e]) = step' (run' st evs) e.
Proof. unfold run. by rewrite foldl_app. Qed.

Lemma coherent_unsettled st : coherent st → settled st = None → pending st.
Proof. intros [Hp | [_ [s Hs]]] Hn; [done | congruence]. Qed.

Lemma on_result_pending r st : pending st → pending (on_result sid r st).
Proof. intros [Hi Hs]. unfold on_result. case_match; by split. Qed.

(** A pending call is settled by the first interval callback that finds the
    timeout elapsed or the second test true, with the array as it is then. *)
Lemma run_settles_at evs : ∀ st s,
  pending st → settled (run' st evs) = Some s →
  ∃ pre now post,
    evs = (pre ++ Tick now :: post)%list
    ∧ pending (run' st pre)
    ∧ s = {| settledAt := now; settledWith := responses (run' st pre) |}
    ∧ (timeout_of opts ≤ now - start ∨ enough opts (run' st pre) = true).
Proof.
  induction evs as [| e evs IH]; intros st s Hp Hs.
  { destruct Hp as [_ Hn]. simpl in Hs. congruence. }
  change (run' st (e :: evs)) with (run' (step' st e) evs) in Hs.
  destruct e as [now | r].
  - pose proof (on_interval_pending opts start now st Hp) as Hstep.
    assert (step' st (Tick now) = on_interval opts start now st) as Hrun.
    { simpl. destruct Hp as [-> _]. reflexivity. }
    destruct (bool_decide (timeout_of opts ≤ now - start) || enough opts st) eqn:Hc.
    + exists [], now, evs. split_and!; try done.
      * rewrite Hrun, Hstep in Hs.
        erewrite run_settled in Hs by reflexivity. simpl. congruence.
      * apply orb_true_iff in Hc as [Hc | Hc]; [left | by right].
        by apply bool_decide_eq_true in Hc.
    + rewrite Hrun, Hstep in Hs.
      destruct (IH st s Hp Hs) as (pre & now' & post & -> & Hpre & -> & Hwhy).
      exists (Tick now :: pre), now', post.
      change (run' st (Tick now :: pre)) with (run' (step' st (Tick now)) pre).
      rewrite Hrun, Hstep. by split_and!.
  - assert (pending (step' st (Result r))) as Hp' by by apply on_result_pending.
    destruct (IH _ s Hp' Hs) as (pre & now' & post & -> & Hpre & -> & Hwhy).
    exists (Result r :: pre), now', post. by split_and!.
Qed.

(** An interval callback that finds the timeout elapsed settles a pending call. *)
Lemma timeout_settles st now :
  pending st → timeout_of opts ≤ now - start →
  settled (step' st (Tick now))
  = Some {| settledAt := now; settledWith := responses st |}.
Proof.
  intros Hp Ht. pose proof (on_interval_pending opts start now st Hp) as Hstep.
  simpl. destruct Hp as [-> _].
  rewrite bool_decide_true in Hstep by done. simpl in Hstep. by rewrite Hstep.
Qed.

(** An interval callback that finds both counts reached settles a pending
    call as well. *)
Lemma enough_settles st now :
  pending st → enough opts st = true →
  settled (step' st (Tick now))
  = Some {| settledAt := now; settledWith := responses st |}.
Proof.
  intros Hp He. pose proof (on_interval_pending opts start now st Hp) as Hstep.
  simpl. destruct Hp as [-> _].
  rewrite He, orb_true_r in Hstep. by rewrite Hstep.
Qed.

(** The consumer goes on after the promise has settled: a later response of
    the session is pushed onto the array, which is the array the caller was
    handed. *)
Lemma late_response_is_pushed st r :
  sessionId r = sid →
  responses (step' st (Result r)) = responses st ++ [r]
  ∧ settled (step' st (Result r)) = settled st.
Proof.
  intros Hr. simpl. unfold on_result.
  rewrite (proj2 (strict_eq_true _ _) Hr). by split.
Qed.

(** Without [maxResponses] the second test of the interval callback fails
    whatever has arrived. *)
Lemma enough_needs_maxResponses st :
  maxResponses opts = None → enough opts st = false.
Proof.
  intros Hmax. unfold enough, maxResponses_of. rewrite Hmax. simpl.
  apply andb_false_r.
Qed.

(** Hence a call without [maxResponses] settles only once the timeout has
    elapsed, however many responses of the session arrive before. *)
Lemma collectResponses_waits_for_timeout evs s :
  maxResponses opts = None →
  settled (collectResponses sid opts start evs) = Some s →
  timeout_of opts ≤ settledAt s - start.
Proof.
  intros Hmax Hs.
  assert (pending initial) as Hp by by split.
  destruct (run_settles_at evs initial s Hp Hs)
    as (pre & now & post & _ & _ & -> & [Ht | He]); [done|].
  by rewrite enough_needs_maxResponses in He.
Qed.

End CollectResponsesSettling.

Section CollectResponsesClaims.
Import JS Routing Collector Scenario.

(** C5, the code at a failing input. A call with [timeout: 5000] and
    [minResponses: 1] receives a response of its session before the first
    interval callback; four callbacks later the array holds that response,
    [minResponses] is reached and the promise is still pending; it settles
    only in the callback at 5000 ms, when the timeout has elapsed. *)
Theorem collectResponses_ignores_minResponses :
  let call := collectResponses (VString "s1") (options 5000 1) 0 in
  responses (call (Result r1 :: ticks 4)) = [r1]
  ∧ minResponses_of (options 5000 1) ≤ Z.of_nat (length (responses (call (Result r1 :: ticks 4))))
  ∧ settled (call (Result r1 :: ticks 4)) = None
  ∧ settled (call (Result r1 :: ticks 5))
    = Some {| settledAt := 5000; settledWith := [r1] |}.
Proof. vm_compute. split_and!; congruence. Qed.

(** C8. A collector of session [S1] and a collector of another session [S2]
    that consume the same stream of results: whatever the stream and the
    callbacks' timing, every response in the array of the first, and in the
    value it returns, carries [S1], none carries [S2], and no response is in
    the arrays of both. *)
Theorem session_isolation (S1 S2 : value) (opts1 opts2 : Options)
    (start1 start2 : Z) (events : list Event) :
  S1 ≠ S2 →
  let c1 := collectResponses S1 opts1 start1 events in
  let c2 := collectResponses S2 opts2 start2 events in
  (∀ r, r ∈ responses c1 → sessionId r = S1 ∧ sessionId r ≠ S2)
  ∧ (∀ s r, settled c1 = Some s → r ∈ settledWith s →
            sessionId r = S1 ∧ sessionId r ≠ S2)
  ∧ (∀ r, r ∈ responses c1 → r ∉ responses c2)
  ∧ responses c1 = filter (λ r, sessionId r = S1) (arrivals events).
Proof.
  intros Hne c1 c2.
  assert (∀ S o st evs r, r ∈ responses (collectResponses S o st evs) →
            sessionId r = S) as Hin.
  { intros S o st evs r. unfold collectResponses. rewrite run_responses. simpl.
    intros Hr. by apply list_elem_of_filter in Hr as [? _]. }
  assert (pending initial) as Hp by by split.
  split_and!.
  - intros r Hr. apply Hin in Hr. split; congruence.
  - intros s r Hs Hr.
    destruct (run_settles_at S1 opts1 start1 events initial s Hp Hs)
      as (pre & now & post & _ & _ & -> & _).
    simpl in Hr. apply (Hin S1 opts1 start1 pre) in Hr. split; congruence.
  - intros r Hr1 Hr2. apply Hin in Hr1. apply Hin in Hr2. congruence.
  - subst c1. unfold collectResponses. by rewrite run_responses.
Qed.

End CollectResponsesClaims.

(** ** Partial collections *)

Section PartialCollectionFacts.
Import JS Routing Collector Scenario.

(** As long as fewer than [taskCount] results have arrived,
    [collectWithTimeout] only accumulates them. *)
Lemma collectWithTimeout_accumulates taskCount msgs : ∀ st,
  resolved st = None → timeoutId st = true →
  Z.of_nat (length (collected st) + length msgs) < taskCount →
  foldl (tstep taskCount) st (Message <$> msgs)
  = {| collected := collected st ++ (result <$> msgs);
       timeoutId := true; resolved := None |}.
Proof.
  induction msgs as [| m msgs IH]; intros st Hr Ht Hlt.
  - simpl. rewrite app_nil_r. destruct st; simpl in *; congruence.
  - cbn [fmap list_fmap foldl]. simpl in Hlt.
    assert (tstep taskCount st (Message m)
            = {| collected := collected st ++ [result m];
                 timeoutId := true; resolved := None |}) as ->.
    { simpl. unfold on_message. rewrite bool_decide_false.
      - by rewrite Ht, Hr.
      - rewrite length_app. simpl. lia. }
    rewrite IH; simpl; try done.
    + by rewrite <- app_assoc.
    + rewrite length_app. simpl. lia.
Qed.

(** C7 (as amended). When the timeout of [collectWithTimeout] fires with
    fewer than [taskCount] results received, the call resolves, with
    [complete: false], the count received, the count expected, the results
    received and no others, in arrival order, and the positive count
    missing.  When an interval callback of [collectResponses] finds the
    timeout elapsed, the call resolves with the responses of the session
    received so far and no others, in arrival order: the array alone. *)
Theorem partial_collection (taskCount : Z) (msgs : list ResultMessage)
    (sid : value) (opts : Options) (start : Z) (pre : list Event) (now : Z) :
  Z.of_nat (length msgs) < taskCount →
  settled (collectResponses sid opts start pre) = None →
  timeout_of opts ≤ now - start →
  resolved (collectWithTimeout taskCount ((Message <$> msgs) ++ [Timer]))
  = Some {| complete := false;
            received := Some (Z.of_nat (length msgs));
            expected := Some taskCount;
            results := result <$> msgs;
            missing := Some (taskCount - Z.of_nat (length msgs)) |}
  ∧ 0 < taskCount - Z.of_nat (length msgs)
  ∧ settled (collectResponses sid opts start (pre ++ [Tick now]))
    = Some {| settledAt := now;
              settledWith := filter (λ r, sessionId r = sid) (arrivals pre) |}.
Proof.
  intros Hlt Hpre Ht. split_and!.
  - unfold collectWithTimeout. rewrite foldl_app.
    rewrite collectWithTimeout_accumulates by done. simpl.
    unfold on_timer, tresolve. simpl. by rewrite length_fmap.
  - lia.
  - unfold collectResponses in *. rewrite run_snoc.
    rewrite timeout_settles; [| | done].
    + by rewrite run_responses.
    + apply coherent_unsettled; [| done].
      apply run_coherent, initial_coherent.
Qed.

Lemma partial_collection_witness :
  Z.of_nat (length [{| result := "report-1" |}]) < 3
  ∧ settled (collectResponses (VString "s1") (options 2000 3) 0
               (Result r1 :: Result other :: ticks 1)) = None
  ∧ timeout_of (options 2000 3) ≤ 2000 - 0
  ∧ resolved (collectWithTimeout 3
                ((Message <$> [{| result := "report-1" |}]) ++ [Timer]))
    = Some {| complete := false; received := Some 1; expected := Some 3;
              results := ["report-1"]; missing := Some 2 |}
  ∧ settled (collectResponses (VString "s1") (options 2000 3) 0
               ((Result r1 :: Result other :: ticks 1) ++ [Tick 2000]))
    = Some {| settledAt := 2000; settledWith := [r1] |}.
Proof.
  assert (Z.of_nat (length [{| result := "report-1" |}]) < 3) as H1
    by (vm_compute; reflexivity).
  assert (settled (collectResponses (VString "s1") (options 2000 3) 0
                     (Result r1 :: Result other :: ticks 1)) = None) as H2
    by (vm_compute; reflexivity).
  assert (timeout_of (options 2000 3) ≤ 2000 - 0) as H3
    by (vm_compute; congruence).
  pose proof (partial_collection 3 [{| result := "report-1" |}]
                (VString "s1") (options 2000 3) 0
                (Result r1 :: Result other :: ticks 1) 2000 H1 H2 H3) as T.
  exact (conj H1 (conj H2 (conj H3 (conj (proj1 T) (proj2 (proj2 T)))))).
Defined.

(** C7, counterexample. A call with [minResponses: 3] that times out with one
    response returns the same value as a call with [minResponses: 1] and
    [maxResponses: 1] that is complete with that response: nothing in the
    value returned by [collectResponses] marks the first as incomplete. *)
Lemma collectResponses_returns_no_marker :
  let short := collectResponses (VString "s1") (options 2000 3) 0
                 (Result r1 :: ticks 2) in
  let full := collectResponses (VString "s1")
                {| timeout := Some 2000; minResponses := Some 1;
                   maxResponses := Some (Finite 1) |} 0
                 (Result r1 :: ticks 1) in
  settledWith <$> settled short = Some [r1]
  ∧ settledAt <$> settled short = Some 2000
  ∧ Z.of_nat (length [r1]) < minResponses_of (options 2000 3)
  ∧ settledWith <$> settled full = Some [r1]
  ∧ settledAt <$> settled full = Some 1000
  ∧ ¬ ∃ marker : list Response → bool,
        (marker <$> (settledWith <$> settled short)) = Some true
        ∧ (marker <$> (settledWith <$> settled full)) = Some false.
Proof.
  assert (∀ x : bool, Some x = Some true → Some x = Some false → False) as Hb
    by (intros x; congruence).
  vm_compute. split_and!; try congruence.
  intros (marker & H1 & H2). eauto.
Qed.

Lemma session_isolation_witness :
  VString "s1" ≠ VString "s2"
  ∧ responses (collectResponses (VString "s1") (options 5000 3) 0
                 (Result r1 :: Result other :: Result r2 :: ticks 1))
    = filter (λ r, sessionId r = VString "s1")
        (arrivals (Result r1 :: Result other :: Result r2 :: ticks 1)).
Proof.
  assert (VString "s1" ≠ VString "s2") as Hne by discriminate.
  split; [exact Hne|].
  exact (proj2 (proj2 (proj2
           (session_isolation (VString "s1") (VString "s2")
              (options 5000 3) (options 5000 3) 0 0
              (Result r1 :: Result other :: Result r2 :: ticks 1) Hne)))).
Defined.

End PartialCollectionFacts.

(** ** Retries *)

Section RetryFacts.
Import Retry.

(** A throwing delivery with retries left is requeued with one retry fewer. *)
Lemma handler_retries id (n : Z) :
  0 < n →
  handler Throws {| taskId := id; retryCount := Some n |}
  = ({| taskId := id; retryCount := Some (n - 1) |}, Nack true).
Proof. intros Hn. unfold handler. simpl. by rewrite bool_decide_true. Qed.

(** A throwing delivery without retries left, or without a count, is rejected. *)
Lemma handler_gives_up task :
  (∀ n, retryCount task = Some n → n ≤ 0) →
  handler Throws task = (task, Reject).
Proof.
  intros Hn. unfold handler. destruct (retryCount task) as [n|]; [|done].
  rewrite bool_decide_false; [done|]. specialize (Hn n eq_refl). lia.
Qed.

Lemma deliveries_requeued fuel exec attempt task task' :
  handler (exec attempt) task = (task', Nack true) →
  deliveries (S fuel) exec attempt task
  = let (ds, f) := deliveries fuel exec (S attempt) task in
    ((task', Nack true) :: ds, f).
Proof. intros H. cbn [deliveries]. by rewrite H. Qed.

Lemma deliveries_rejected fuel exec attempt task task' :
  handler (exec attempt) task = (task', Reject) →
  deliveries (S fuel) exec attempt task = ([(task', Reject)], DeadLettered).
Proof. intros H. cbn [deliveries]. by rewrite H. Qed.

(** A task published with retries left is requeued at every throwing
    delivery: each delivery reads the count as published, decrements its own
    copy and answers with a requeueing nack; the reject is never reached. *)
Lemma always_throws_requeued id (r : Z) :
  0 < r → ∀ (fuel attempt : nat),
  deliveries fuel always_throws attempt {| taskId := id; retryCount := Some r |}
  = (replicate fuel ({| taskId := id; retryCount := Some (r - 1) |}, Nack true),
     Queued).
Proof.
  intros Hr. induction fuel as [| fuel IH]; intros attempt; [done|].
  erewrite deliveries_requeued by (by apply handler_retries).
  by rewrite IH.
Qed.

(** A task published without retries left, or without a count, is rejected
    at its first throwing delivery. *)
Lemma always_throws_rejected task (fuel attempt : nat) :
  (∀ n, retryCount task = Some n → n ≤ 0) →
  deliveries (S fuel) always_throws attempt task = ([(task, Reject)], DeadLettered).
Proof. intros Hn. apply deliveries_rejected. by apply handler_gives_up. Qed.

(** C6, the code at a failing input. A task published with [retryCount: 3]
    whose handler throws at every delivery is never dead-lettered: however
    many deliveries are observed, each of them reads a count of 3, decrements
    its own copy to 2 and answers with [nack(true)], and the task is queued
    again.  So the fourth delivery takes place, and the fifth, and [reject]
    is never called; only a task published with no retry left reaches it, at
    its first delivery. *)
Theorem retry_budget_never_exhausted :
  let task := {| taskId := "t1"; retryCount := Some 3 |} in
  (∀ n : nat,
     deliveries n always_throws 1 task
     = (replicate n ({| taskId := "t1"; retryCount := Some 2 |}, Nack true), Queued))
  ∧ (deliveries 4 always_throws 1 task).1
    = replicate 4 ({| taskId := "t1"; retryCount := Some 2 |}, Nack true)
  ∧ (∀ n : nat,
       Forall (λ d, d.2 = Nack true) (deliveries n always_throws 1 task).1
       ∧ length (deliveries n always_throws 1 task).1 = n
       ∧ (deliveries n always_throws 1 task).2 = Queued)
  ∧ (∀ n : nat,
       deliveries (S n) always_throws 1 {| taskId := "t1"; retryCount := Some 0 |}
       = ([({| taskId := "t1"; retryCount := Some 0 |}, Reject)], DeadLettered)).
Proof.
  intros task. subst task.
  assert (∀ n : nat,
            deliveries n always_throws 1 {| taskId := "t1"; retryCount := Some 3 |}
            = (replicate n ({| taskId := "t1"; retryCount := Some 2 |}, Nack true),
               Queued)) as Hrun.
  { intros n. by rewrite always_throws_requeued. }
  split_and!.
  - exact Hrun.
  - by rewrite Hrun.
  - intros n. rewrite Hrun. cbn [fst snd]. split_and!.
    + apply Forall_replicate. done.
    + apply length_replicate.
    + done.
  - intros n. apply always_throws_rejected. cbn. intros ? [= <-]. lia.
Qed.

(** Scenario D: two throwing deliveries, then one that returns, complete the
    task at the third delivery. *)
Lemma third_delivery_completes :
  deliveries 10 (throws_before 3) 1 {| taskId := "t1"; retryCount := Some 3 |}
  = ([({| taskId := "t1"; retryCount := Some 2 |}, Nack true);
      ({| taskId := "t1"; retryCount := Some 2 |}, Nack true);
      ({| taskId := "t1"; retryCount := Some 3 |}, Ack)], Completed).
Proof. vm_compute. reflexivity. Qed.

End RetryFacts.

(** ** Priority order of the work queue *)

Section WorkQueueFacts.
Import WorkQueue.

Local Abbreviation at_priority p := (filter (λ t : Task, priority t = p)).
Local Abbreviation by_priority := (λ a b : Task, priority b ≤ priority a).

Lemma deliver_None q : deliver q = None ↔ q = [].
Proof.
  split; [| by intros ->].
  destruct q as [| t q]; [done|]. simpl.
  destruct (deliver q) as [[u rest]|]; [|done]. by case_bool_decide.
Qed.

(** A delivery takes a task that no earlier task equals or exceeds in
    priority and no later task exceeds, and leaves the others in order. *)
Lemma deliver_spec q : ∀ t rest,
  deliver q = Some (t, rest) →
  ∃ pre post,
    q = pre ++ t :: post ∧ rest = pre ++ post
    ∧ (∀ u, u ∈ pre → priority u < priority t)
    ∧ (∀ u, u ∈ post → priority u ≤ priority t).
Proof.
  induction q as [| x q IH]; intros t rest Hd; [done|].
  simpl in Hd. destruct (deliver q) as [[u r]|] eqn:Hq.
  - destruct (IH u r eq_refl) as (pre & post & -> & -> & Hpre & Hpost).
    case_bool_decide as Hux; injection Hd as <- <-.
    + exists [], (pre ++ u :: post). split_and!; try done.
      * intros v Hv. by apply elem_of_nil in Hv.
      * intros v Hv. apply elem_of_app in Hv as [Hv | Hv].
        -- specialize (Hpre v Hv). lia.
        -- apply elem_of_cons in Hv as [-> | Hv]; [done|].
           specialize (Hpost v Hv). lia.
    + exists (x :: pre), post. split_and!; try done.
      intros v Hv. apply elem_of_cons in Hv as [-> | Hv]; [lia | by apply Hpre].
  - apply deliver_None in Hq as ->. injection Hd as <- <-.
    exists [], []. split_and!; try done; intros v Hv; by apply elem_of_nil in Hv.
Qed.

Lemma filter_none_below p (pre : list Task) (t : Task) :
  (∀ u, u ∈ pre → priority u < priority t) → priority t = p →
  at_priority p pre = [].
Proof.
  intros Hpre Hp. induction pre as [| u pre IH]; [done|].
  rewrite filter_cons. case_decide as Hu.
  - specialize (Hpre u (list_elem_of_here _ _)). lia.
  - apply IH. intros v Hv. apply Hpre. by apply list_elem_of_further.
Qed.

(** Delivering as many tasks as are queued delivers each queued task once,
    by falling priority, and tasks of one priority in their arrival order. *)
Lemma consume_spec n : ∀ q,
  length q = n →
  consume n q ≡ₚ q
  ∧ StronglySorted by_priority (consume n q)
  ∧ ∀ p, at_priority p (consume n q) = at_priority p q.
Proof.
  induction n as [| n IH]; intros q Hlen.
  { destruct q; [|done]. simpl. split_and!; [done | constructor | done]. }
  cbn [consume]. destruct (deliver q) as [[t rest]|] eqn:Hd.
  - destruct (deliver_spec q t rest Hd) as (pre & post & -> & -> & Hpre & Hpost).
    rewrite length_app in Hlen. simpl in Hlen.
    destruct (IH (pre ++ post)) as (Hperm & Hsort & Hstable).
    { rewrite length_app. lia. }
    split_and!.
    + rewrite Hperm. apply Permutation_middle.
    + constructor; [done|]. apply Forall_forall. intros v Hv.
      rewrite Hperm in Hv. apply elem_of_app in Hv as [Hv | Hv].
      * specialize (Hpre v Hv). lia.
      * by apply Hpost.
    + intros p. rewrite filter_cons, Hstable, !filter_app, filter_cons.
      case_decide as Hp; [|done].
      by rewrite (filter_none_below p pre t Hpre Hp).
  - apply deliver_None in Hd as ->. done.
Qed.

(** C9. Every delivery takes a task of the highest priority queued, and
    among those the one that arrived first; the others stay queued in
    arrival order.  A consumer that drains the queue therefore receives each
    task once, by falling priority, and tasks of equal priority in arrival
    order; tasks enqueued as low, high, low arrive as high, low, low. *)
Theorem priority_order :
  (∀ q t rest, deliver q = Some (t, rest) →
     ∃ pre post,
       q = pre ++ t :: post ∧ rest = pre ++ post
       ∧ (∀ u, u ∈ pre → priority u < priority t)
       ∧ (∀ u, u ∈ post → priority u ≤ priority t))
  ∧ (∀ q, q ≠ [] → is_Some (deliver q))
  ∧ (∀ q, drain q ≡ₚ q
          ∧ StronglySorted (λ a b, priority b ≤ priority a) (drain q)
          ∧ ∀ p, filter (λ t, priority t = p) (drain q)
                 = filter (λ t, priority t = p) q)
  ∧ (∀ low1 high low2,
       priority low1 = priority low2 → priority low1 < priority high →
       drain (publish low2 (publish high (publish low1 []))) = [high; low1; low2]).
Proof.
  split_and!.
  - intros q. apply deliver_spec.
  - intros q Hq. destruct (deliver q) eqn:Hd; [by eexists|].
    by apply deliver_None in Hd.
  - intros q. by apply consume_spec.
  - intros l1 h l2 Heq Hlt. unfold drain, publish. simpl.
    repeat (case_bool_decide; simpl); try lia; reflexivity.
Qed.

(** The tasks of property P5, with priorities 1, 8 and 1. *)
Example low_high_low :
  drain (publish {| id := "t3"; priority := 1 |}
           (publish {| id := "t2"; priority := 8 |}
              (publish {| id := "t1"; priority := 1 |} [])))
  = [{| id := "t2"; priority := 8 |}; {| id := "t1"; priority := 1 |};
     {| id := "t3"; priority := 1 |}].
Proof. vm_compute. reflexivity. Qed.

End WorkQueueFacts.

(** * Further properties of the code *)

(** ** The identity fix *)

Section LegacyFacts.
Import JS Identity Routing Legacy.
Context {rng : Type} (uuidv4 : rng → string * rng).

Lemma result_queue_name_inj a b :
  "brainstorm.results." +:+ a = "brainstorm.results." +:+ b → a = b.
Proof. apply String.app_inj. Qed.

Lemma result_queue_name_eq x y :
  "brainstorm.results." +:+ x = "brainstorm.results." +:+ y ↔ VString x = VString y.
Proof.
  split.
  - intros H. f_equal. by apply result_queue_name_inj.
  - intros H. by simplify_eq.
Qed.

Lemma generated_id_eq u v :
  VString ("agent-" +:+ u) = VString ("agent-" +:+ v) ↔ u = v.
Proof.
  split.
  - intros H. assert ("agent-" +:+ u = "agent-" +:+ v) as H' by congruence.
    by apply String.app_inj in H'.
  - by intros ->.
Qed.

(** X2. Before the fix the client ignored the id the orchestrator handed it:
    the two held the same id only if [AGENT_ID] happened to be the id the
    orchestrator had generated, or if [AGENT_ID] was unset or empty and the
    random source gave the same uuid twice in a row.  In every other case the
    queue the client declared was not the queue named after the
    orchestrator's id. *)
Theorem old_constructor_ids_differ (env : Env) (g : rng) :
  let o := (old_AgentOrchestrator uuidv4 env g).1 in
  let u1 := (uuidv4 g).1 in
  let u2 := (uuidv4 (uuidv4 g).2).1 in
  orch_agentId o = VString ("agent-" +:+ u1)
  ∧ (agentId (client o) = orch_agentId o
     ↔ AGENT_ID env = Some ("agent-" +:+ u1)
       ∨ ((AGENT_ID env = None ∨ AGENT_ID env = Some "") ∧ u2 = u1))
  ∧ (∀ ch, (setupBrainstormResultQueue (client o) ch).1
           = result_queue_name (orch_agentId o)
           ↔ agentId (client o) = orch_agentId o).
Proof.
  intros o u1 u2. subst o u1 u2.
  unfold old_AgentOrchestrator, old_RabbitMQClient, generate.
  destruct (uuidv4 g) as [u1 g1]. simpl.
  assert (∀ e, e ≠ "" → AGENT_ID env = Some e →
            (VString e = VString ("agent-" +:+ u1)
             ↔ Some e = Some ("agent-" +:+ u1)
               ∨ ((Some e = None ∨ Some e = Some "") ∧ (uuidv4 g1).1 = u1))) as Hset.
  { intros e Hne _. split; [intros [= ->]; by left|].
    intros [[= ->] | [[[=] | [= ->]] _]]; done. }
  assert (∀ o : option string, o = None ∨ o = Some "" →
            (VString ("agent-" +:+ (uuidv4 g1).1) = VString ("agent-" +:+ u1)
             ↔ o = Some ("agent-" +:+ u1)
               ∨ ((o = None ∨ o = Some "") ∧ (uuidv4 g1).1 = u1))) as Hunset.
  { intros o Ho. rewrite generated_id_eq. split; [by right|].
    intros [-> | [_ ?]]; [|done]. by destruct Ho. }
  destruct (AGENT_ID env) as [e|] eqn:He.
  - destruct (decide (e = "")) as [-> | Hne].
    + rewrite or_else_falsy by done.
      specialize (Hunset (Some "") (or_intror eq_refl)).
      destruct (uuidv4 g1) as [u2 g2]. simpl in *. split_and!; [done | done |].
      intros ch. apply result_queue_name_eq.
    + rewrite or_else_truthy by by apply truthy_VString.
      simpl. split_and!; [done | by apply Hset |].
      intros ch. apply result_queue_name_eq.
  - rewrite or_else_falsy by done.
    specialize (Hunset None (or_introl eq_refl)).
    destruct (uuidv4 g1) as [u2 g2]. simpl in *. split_and!; [done | done |].
    intros ch. apply result_queue_name_eq.
Qed.

End LegacyFacts.

(** ** Who handles a response *)

Section ConsumerFacts.
Import JS Identity Routing Consumers.

Lemma handled_app consumed ch q r :
  handled consumed (sendToQueue q r ch)
  = handled consumed ch ++ (if decide (q ∈ consumed) then [r] else []).
Proof.
  unfold handled, sendToQueue. simpl. rewrite filter_app, fmap_app. f_equal.
  rewrite filter_cons, filter_nil. simpl. by case_decide.
Qed.

(** X3. A leader listens to the shared queue and to its own exclusive queue,
    a worker to its own exclusive queue only.  So for each answer of a
    collaborator, a leader that asked handles the response twice, a leader
    that did not ask handles it once, a worker that asked handles it once,
    and a worker that did not ask never sees it. *)
Theorem response_fan_in (asker other : RabbitMQClient) (a b : string)
    (m : Session) (ex : option string) (ch0 : Channel)
    (w : Worker) (s : string) (now : Z) (ch : Channel) :
  agentId asker = VString a → a ≠ "" →
  agentId other = VString b → b ≠ "" → a ≠ b →
  let msg := (broadcastBrainstorm asker m ex ch0).1 in
  let r := build_response w msg s now in
  let ch' := (handleBrainstorm w msg s now ch).2 in
  handled (startLeader asker ch0).1 ch' = handled (startLeader asker ch0).1 ch ++ [r; r]
  ∧ handled (startLeader other ch0).1 ch' = handled (startLeader other ch0).1 ch ++ [r]
  ∧ handled (startWorker asker ch0).1 ch' = handled (startWorker asker ch0).1 ch ++ [r]
  ∧ handled (startWorker other ch0).1 ch' = handled (startWorker other ch0).1 ch.
Proof.
  intros Ha Hane Hb Hbne Hab msg r ch'. subst msg r ch'.
  unfold handleBrainstorm, orchestrator_publishResult, publishResult. simpl.
  rewrite Ha, Hb. simpl to_template.
  rewrite (destinationQueue_supplied a None Hane).
  rewrite (destinationQueue_falsy VUndefined None eq_refl). simpl default.
  rewrite !handled_app.
  assert ("brainstorm.results." +:+ a ≠ "brainstorm.results." +:+ b) as Hq.
  { intros H. by apply Hab, result_queue_name_inj. }
  assert ("brainstorm.results." +:+ a ≠ "agent.results") as Hs1 by (simpl; discriminate).
  assert ("agent.results" ≠ "brainstorm.results." +:+ a) as Hs2 by (simpl; discriminate).
  assert ("agent.results" ≠ "brainstorm.results." +:+ b) as Hs3 by (simpl; discriminate).
  split_and!.
  - rewrite !decide_True by (rewrite !elem_of_cons; tauto).
    by rewrite <- app_assoc.
  - rewrite decide_False, decide_True, app_nil_r;
      rewrite ?elem_of_cons, ?elem_of_nil; tauto.
  - rewrite decide_True, decide_False, app_nil_r;
      rewrite ?elem_of_cons, ?elem_of_nil; tauto.
  - rewrite !decide_False, !app_nil_r;
      rewrite ?elem_of_cons, ?elem_of_nil; tauto.
Qed.

End ConsumerFacts.

(** ** Routing by type *)

Section Solution3Facts.
Import JS Identity Routing.

(** X4. Under the routing by type, every response that [handleBrainstorm]
    builds goes to the queue [agent.brainstorm.results], which the set-up of
    that solution declares, and never to [agent.results]; a result of any
    other type goes to [agent.results] and never to the brainstorm queue. *)
Theorem by_type_separates (w : Worker) (msg : Broadcast) (s : string) (now : Z)
    (other : Response) (ch : Channel) :
  type other ≠ "brainstorm_response" →
  let r := build_response w msg s now in
  sent (Solution3.publishResult r ch)
  = sent ch ++ [((Solution3.setupBrainstormResultQueue ch).1, r)]
  ∧ queue_contents "agent.results" (Solution3.publishResult r ch)
    = queue_contents "agent.results" ch
  ∧ sent (Solution3.publishResult other ch) = sent ch ++ [("agent.results", other)]
  ∧ queue_contents "agent.brainstorm.results" (Solution3.publishResult other ch)
    = queue_contents "agent.brainstorm.results" ch.
Proof.
  intros Hother r. unfold Solution3.publishResult, queue_contents, sendToQueue.
  simpl. rewrite bool_decide_false by done. simpl.
  rewrite !filter_app, !fmap_app, !filter_cons, !filter_nil. simpl.
  repeat case_decide; try done. by rewrite !app_nil_r.
Qed.

End Solution3Facts.

(** ** More on collecting responses *)

Section CollectResponsesMore.
Import JS Routing Collector Scenario.

Lemma run_app sid opts start st a b :
  run sid opts start st (a ++ b) = run sid opts start (run sid opts start st a) b.
Proof. unfold run. by rewrite foldl_app. Qed.

Lemma enough_spec opts st :
  enough opts st = true
  ↔ minResponses_of opts ≤ Z.of_nat (length (responses st))
    ∧ match maxResponses_of opts with
      | Finite m => m ≤ Z.of_nat (length (responses st))
      | Infinity => False
      end.
Proof.
  unfold enough. rewrite andb_true_iff. simpl.
  rewrite bool_decide_eq_true.
  destruct (maxResponses_of opts) as [m|]; simpl.
  - by rewrite bool_decide_eq_true.
  - split; [intros [_ [=]] | intros [_ []]].
Qed.

(** X5. What an interval callback does to a call that is still pending: it
    resolves the call, with exactly the responses of the session that have
    arrived, if the timeout has elapsed or if the number of these responses
    has reached both [minResponses] and [maxResponses]; otherwise the call
    stays pending. *)
Theorem interval_callback_settles_iff (sid : value) (opts : Options) (start : Z)
    (pre : list Event) (now : Z) :
  settled (collectResponses sid opts start pre) = None →
  let got := filter (λ r, sessionId r = sid) (arrivals pre) in
  let due :=
    timeout_of opts ≤ now - start
    ∨ (minResponses_of opts ≤ Z.of_nat (length got)
       ∧ match maxResponses_of opts with
         | Finite m => m ≤ Z.of_nat (length got)
         | Infinity => False
         end) in
  (due → settled (collectResponses sid opts start (pre ++ [Tick now]))
         = Some {| settledAt := now; settledWith := got |})
  ∧ (¬ due → settled (collectResponses sid opts start (pre ++ [Tick now])) = None).
Proof.
  intros Hpre got due. unfold collectResponses in *. rewrite run_snoc.
  assert (pending (run sid opts start initial pre)) as Hp.
  { apply coherent_unsettled; [| done]. apply run_coherent, initial_coherent. }
  assert (responses (run sid opts start initial pre) = got) as Hgot
    by by rewrite run_responses.
  pose proof (on_interval_pending opts start now _ Hp) as Hstep.
  pose proof (enough_spec opts (run sid opts start initial pre)) as He.
  rewrite Hgot in He, Hstep.
  assert (step sid opts start (run sid opts start initial pre) (Tick now)
          = on_interval opts start now (run sid opts start initial pre)) as ->.
  { simpl. by destruct Hp as [-> _]. }
  destruct (bool_decide (timeout_of opts ≤ now - start)
            || enough opts (run sid opts start initial pre)) eqn:Hc;
    rewrite Hstep.
  - split; [done|]. intros Hnot. exfalso. apply Hnot.
    apply orb_true_iff in Hc as [Hc | Hc].
    + left. by apply bool_decide_eq_true in Hc.
    + right. by apply He.
  - split; [| by destruct Hp].
    intros [Ht | Hn]; exfalso; apply orb_false_iff in Hc as [Hc1 Hc2].
    + by apply bool_decide_eq_false in Hc1.
    + apply He in Hn. congruence.
Qed.

Lemma interval_callback_settles_iff_witness :
  settled (collectResponses (VString "s1")
             {| timeout := Some 5000; minResponses := Some 1;
                maxResponses := Some (Finite 2) |} 0
             [Result r1; Result other; Result r2]) = None
  ∧ settled (collectResponses (VString "s1")
               {| timeout := Some 5000; minResponses := Some 1;
                  maxResponses := Some (Finite 2) |} 0
               ([Result r1; Result other; Result r2] ++ [Tick 1000]))
    = Some {| settledAt := 1000; settledWith := [r1; r2] |}.
Proof.
  assert (settled (collectResponses (VString "s1")
             {| timeout := Some 5000; minResponses := Some 1;
                maxResponses := Some (Finite 2) |} 0
             [Result r1; Result other; Result r2]) = None) as H
    by (vm_compute; reflexivity).
  split; [exact H|].
  apply (proj1 (interval_callback_settles_iff (VString "s1")
           {| timeout := Some 5000; minResponses := Some 1;
              maxResponses := Some (Finite 2) |} 0
           [Result r1; Result other; Result r2] 1000 H)).
  right. vm_compute. split; congruence.
Defined.

(** X6. Once the call has resolved, nothing that follows changes the value
    or the time it resolved with, and the interval stays cleared; but the
    consumer is still subscribed, and every later response of the session is
    pushed onto the array, which is the array the caller was handed. *)
Theorem resolved_call_keeps_collecting (sid : value) (opts : Options) (start : Z)
    (pre post : list Event) (s : Settlement) :
  settled (collectResponses sid opts start pre) = Some s →
  settled (collectResponses sid opts start (pre ++ post)) = Some s
  ∧ interval (collectResponses sid opts start (pre ++ post)) = false
  ∧ responses (collectResponses sid opts start (pre ++ post))
    = responses (collectResponses sid opts start pre)
      ++ filter (λ r, sessionId r = sid) (arrivals post).
Proof.
  intros Hs. unfold collectResponses in *. rewrite run_app. split_and!.
  - by apply run_settled.
  - assert (coherent (run sid opts start (run sid opts start initial pre) post))
      as [[_ Hn] | [Hi _]]; [| | done].
    + apply run_coherent, run_coherent, initial_coherent.
    + erewrite run_settled in Hn by done. discriminate.
  - by rewrite run_responses.
Qed.

Lemma resolved_call_keeps_collecting_witness :
  settled (collectResponses (VString "s1") (options 2000 1) 0
             (Result r1 :: ticks 2))
  = Some {| settledAt := 2000; settledWith := [r1] |}
  ∧ responses (collectResponses (VString "s1") (options 2000 1) 0
                 ((Result r1 :: ticks 2) ++ [Result r2; Result other]))
    = responses (collectResponses (VString "s1") (options 2000 1) 0
                   (Result r1 :: ticks 2))
      ++ filter (λ r, sessionId r = VString "s1") (arrivals [Result r2; Result other]).
Proof.
  assert (settled (collectResponses (VString "s1") (options 2000 1) 0
             (Result r1 :: ticks 2))
          = Some {| settledAt := 2000; settledWith := [r1] |}) as H
    by (vm_compute; reflexivity).
  split; [exact H|].
  exact (proj2 (proj2 (resolved_call_keeps_collecting (VString "s1")
           (options 2000 1) 0 (Result r1 :: ticks 2)
           [Result r2; Result other] _ H))).
Defined.

End CollectResponsesMore.

(** ** More on collecting task results *)

Section CollectWithTimeoutMore.
Import JS Routing Collector.

(** The results that the messages among the events carry, in arrival order. *)
Local Abbreviation pushes :=
  (omap (λ e, match e with Message m => Some (result m) | Timer => None end)).

Lemma alias_alias p q o : alias p (alias q o) = alias p o.
Proof. done. Qed.

Lemma alias_results o : alias (results o) o = o.
Proof. by destruct o. Qed.

(** The array holds every result that has arrived, resolved or not. *)
Lemma tstep_collected taskCount st e :
  collected (tstep taskCount st e) = collected st ++ pushes [e].
Proof.
  destruct e as [| m]; cbn.
  - rewrite app_nil_r. case_match; [|done]. unfold on_timer, tresolve. cbn.
    by case_match.
  - unfold on_message. case_bool_decide; [|done]. unfold tresolve. cbn.
    by case_match.
Qed.

(** A promise settles once, and the object it settled with shows the array
    as it is now. *)
Lemma tstep_resolved taskCount st e o :
  resolved st = Some o →
  resolved (tstep taskCount st e)
  = Some (alias (match e with
                 | Message m => collected st ++ [result m]
                 | Timer => results o
                 end) o).
Proof.
  intros Hr. destruct e as [| m]; cbn.
  - rewrite alias_results.
    case_match; [|done]. unfold on_timer, tresolve. cbn. by rewrite Hr.
  - unfold on_message. case_bool_decide.
    + unfold tresolve. cbn. by rewrite Hr.
    + cbn. by rewrite Hr.
Qed.

Lemma tsteps_resolved taskCount events : ∀ st o,
  resolved st = Some o → results o = collected st →
  resolved (foldl (tstep taskCount) st events)
  = Some (alias (collected st ++ pushes events) o).
Proof.
  induction events as [| e events IH]; intros st o Hr Hlive.
  { cbn. by rewrite app_nil_r, <- Hlive, alias_results. }
  cbn [foldl].
  pose proof (tstep_resolved taskCount st e o Hr) as Hstep.
  pose proof (tstep_collected taskCount st e) as Hcol.
  rewrite (IH _ _ Hstep).
  - rewrite alias_alias, Hcol. f_equal. f_equal.
    rewrite <- app_assoc. f_equal. by destruct e.
  - rewrite Hcol. destruct e as [| m]; cbn; [by rewrite app_nil_r | done].
Qed.

(** As long as the count of results never equals [taskCount], the messages
    are only accumulated. *)
Lemma collectWithTimeout_pending taskCount msgs : ∀ st,
  resolved st = None → timeoutId st = true →
  (∀ i : nat, (length (collected st) < i ≤ length (collected st) + length msgs)%nat →
              Z.of_nat i ≠ taskCount) →
  foldl (tstep taskCount) st (Message <$> msgs)
  = {| collected := collected st ++ (result <$> msgs);
       timeoutId := true; resolved := None |}.
Proof.
  induction msgs as [| m msgs IH]; intros st Hr Ht Hne.
  - simpl. rewrite app_nil_r. destruct st; simpl in *; congruence.
  - cbn [fmap list_fmap foldl]. simpl in Hne.
    assert (tstep taskCount st (Message m)
            = {| collected := collected st ++ [result m];
                 timeoutId := true; resolved := None |}) as ->.
    { simpl. unfold on_message. rewrite bool_decide_false.
      - by rewrite Ht, Hr.
      - rewrite length_app. simpl. apply Hne. lia. }
    rewrite IH; simpl; try done.
    + by rewrite <- app_assoc.
    + intros i Hi. rewrite length_app in Hi. simpl in Hi. apply Hne. lia.
Qed.

(** X8. When the [taskCount]-th result arrives before the timeout fires,
    [collectWithTimeout] resolves with [complete: true] and the results in
    arrival order, and clears the timeout.  Whatever follows, the object
    stays [complete: true] and the timeout callback adds nothing to it; but
    the consumer is never cancelled and the object holds the array itself, so
    every later result is pushed onto the results the caller was handed. *)
Theorem collectWithTimeout_completes (taskCount : Z) (msgs : list ResultMessage)
    (rest : list TEvent) :
  msgs ≠ [] → Z.of_nat (length msgs) = taskCount →
  resolved (collectWithTimeout taskCount (Message <$> msgs))
  = Some {| complete := true; received := None; expected := None;
            results := result <$> msgs; missing := None |}
  ∧ timeoutId (collectWithTimeout taskCount (Message <$> msgs)) = false
  ∧ resolved (collectWithTimeout taskCount ((Message <$> msgs) ++ rest))
    = Some {| complete := true; received := None; expected := None;
              results :=
                (result <$> msgs)
                ++ omap (λ e, match e with
                              | Message m => Some (result m)
                              | Timer => None
                              end) rest;
              missing := None |}.
Proof.
  intros Hne Hlen.
  destruct (exists_last Hne) as (init & m & ->).
  rewrite length_app in Hlen. simpl in Hlen.
  assert (foldl (tstep taskCount) tinitial (Message <$> init ++ [m])
          = {| collected := result <$> init ++ [m]; timeoutId := false;
               resolved := Some {| complete := true; received := None;
                                   expected := None;
                                   results := result <$> init ++ [m];
                                   missing := None |} |}) as Hrun.
  { rewrite fmap_app, foldl_app.
    rewrite (collectWithTimeout_pending taskCount init tinitial); simpl; try done.
    - unfold on_message. simpl.
      rewrite bool_decide_true by (rewrite length_app, length_fmap; simpl; lia).
      by rewrite fmap_app.
    - intros i Hi. lia. }
  unfold collectWithTimeout. split_and!.
  - by rewrite Hrun.
  - by rewrite Hrun.
  - rewrite foldl_app, Hrun.
    by erewrite tsteps_resolved by reflexivity.
Qed.

Lemma collectWithTimeout_completes_witness :
  [{| result := "a" |}; {| result := "b" |}] ≠ []
  ∧ Z.of_nat (length [{| result := "a" |}; {| result := "b" |}]) = 2
  ∧ resolved (collectWithTimeout 2
                (Message <$> [{| result := "a" |}; {| result := "b" |}]))
    = Some {| complete := true; received := None; expected := None;
              results := ["a"; "b"]; missing := None |}
  ∧ resolved (collectWithTimeout 2
                ((Message <$> [{| result := "a" |}; {| result := "b" |}])
                 ++ [Timer; Message {| result := "c" |}]))
    = Some {| complete := true; received := None; expected := None;
              results := ["a"; "b"; "c"]; missing := None |}.
Proof.
  assert ([{| result := "a" |}; {| result := "b" |}] ≠ []) as H1 by discriminate.
  assert (Z.of_nat (length [{| result := "a" |}; {| result := "b" |}]) = 2) as H2
    by reflexivity.
  pose proof (collectWithTimeout_completes 2
                [{| result := "a" |}; {| result := "b" |}]
                [Timer; Message {| result := "c" |}] H1 H2) as T.
  exact (conj H1 (conj H2 (conj (proj1 T) (proj2 (proj2 T))))).
Defined.

(** X9. A call that expects no result, or a negative number of them, is
    never complete: whatever arrives, it stays pending until the timeout
    fires, and then reports [complete: false] with a count of missing
    results that is zero or negative. *)
Theorem collectWithTimeout_nothing_expected (taskCount : Z)
    (msgs : list ResultMessage) :
  taskCount ≤ 0 →
  resolved (collectWithTimeout taskCount (Message <$> msgs)) = None
  ∧ resolved (collectWithTimeout taskCount ((Message <$> msgs) ++ [Timer]))
    = Some {| complete := false;
              received := Some (Z.of_nat (length msgs));
              expected := Some taskCount;
              results := result <$> msgs;
              missing := Some (taskCount - Z.of_nat (length msgs)) |}
  ∧ taskCount - Z.of_nat (length msgs) ≤ 0.
Proof.
  intros Hle. unfold collectWithTimeout.
  assert (foldl (tstep taskCount) tinitial (Message <$> msgs)
          = {| collected := result <$> msgs; timeoutId := true;
               resolved := None |}) as Hrun.
  { rewrite collectWithTimeout_pending; simpl; try done. intros i Hi. lia. }
  split_and!.
  - by rewrite Hrun.
  - rewrite foldl_app, Hrun. simpl. unfold on_timer, tresolve. simpl.
    by rewrite length_fmap.
  - lia.
Qed.

Lemma collectWithTimeout_nothing_expected_witness :
  0 ≤ 0
  ∧ resolved (collectWithTimeout 0 ((Message <$> []) ++ [Timer]))
    = Some {| complete := false; received := Some 0; expected := Some 0;
              results := []; missing := Some 0 |}.
Proof.
  assert (0 ≤ 0) as H by lia.
  exact (conj H (proj1 (proj2 (collectWithTimeout_nothing_expected 0 [] H)))).
Defined.

End CollectWithTimeoutMore.

(** ** More on retries *)

Section RetryMore.
Import Retry.

Lemma deliveries_acked fuel exec attempt task task' :
  handler (exec attempt) task = (task', Ack) →
  deliveries (S fuel) exec attempt task = ([(task', Ack)], Completed).
Proof. intros H. cbn [deliveries]. by rewrite H. Qed.

(** Deliveries that throw, then one that returns, for a task published with
    retries left. *)
Lemma succeeds_after id exec (r : Z) (f : nat) : ∀ attempt extra,
  0 < r →
  (∀ n, (attempt ≤ n < attempt + f)%nat → exec n = Throws) →
  exec (attempt + f)%nat = Returns →
  deliveries (S f + extra) exec attempt {| taskId := id; retryCount := Some r |}
  = (replicate f ({| taskId := id; retryCount := Some (r - 1) |}, Nack true)
     ++ [({| taskId := id; retryCount := Some r |}, Ack)], Completed).
Proof.
  induction f as [| f IH]; intros attempt extra Hr Hthrows Hret.
  - cbn [Nat.add]. rewrite Nat.add_0_r in Hret.
    erewrite deliveries_acked; [done | by rewrite Hret].
  - change (S (S f) + extra)%nat with (S (S f + extra)).
    erewrite deliveries_requeued.
    2: { rewrite Hthrows by lia. by apply handler_retries. }
    rewrite IH; [done | done | |].
    + intros n Hn. apply Hthrows. lia.
    + by replace (S attempt + f)%nat with (attempt + S f)%nat by lia.
Qed.

(** X10. A handler that throws on the deliveries before the [k]-th and
    returns from then on.  For a task published with a positive
    [retryCount], the task is completed at the [k]-th delivery after [k - 1]
    requeues, however many these are: every delivery reads the count as
    published and decrements its own copy only, so the count works as a
    switch, not as a budget.  For a task published with a count of zero or
    less, or with none, the first delivery rejects it and the delivery that
    would have succeeded never takes place. *)
Theorem retry_until_success (id : string) (r : Z) (k extra : nat) :
  (1 ≤ k)%nat →
  let task := {| taskId := id; retryCount := Some r |} in
  let bare := {| taskId := id; retryCount := None |} in
  (0 < r →
   deliveries (k + extra) (throws_before k) 1 task
   = (replicate (k - 1) ({| taskId := id; retryCount := Some (r - 1) |}, Nack true)
      ++ [(task, Ack)], Completed))
  ∧ (r ≤ 0 → (2 ≤ k)%nat →
     deliveries (k + extra) (throws_before k) 1 task
     = ([(task, Reject)], DeadLettered))
  ∧ ((2 ≤ k)%nat →
     deliveries (k + extra) (throws_before k) 1 bare
     = ([(bare, Reject)], DeadLettered)).
Proof.
  intros Hk task bare. subst task bare.
  assert (∀ t, (2 ≤ k)%nat → (∀ n, retryCount t = Some n → n ≤ 0) →
            deliveries (k + extra) (throws_before k) 1 t
            = ([(t, Reject)], DeadLettered)) as Hreject.
  { intros t Hk2 Hn. replace (k + extra)%nat with (S (k - 1 + extra)) by lia.
    apply deliveries_rejected. unfold throws_before.
    rewrite bool_decide_true by lia. by apply handler_gives_up. }
  split_and!.
  - intros Hr. replace (k + extra)%nat with (S (k - 1) + extra)%nat by lia.
    apply succeeds_after; [done | |].
    + intros n Hn. unfold throws_before. rewrite bool_decide_true; [done | lia].
    + unfold throws_before. rewrite bool_decide_false; [done | lia].
  - intros Hr Hk2. apply Hreject; [done|]. cbn. intros ? [= <-]. done.
  - intros Hk2. apply Hreject; [done|]. cbn. intros ? [=].
Qed.

Lemma retry_until_success_witness :
  (1 ≤ 6)%nat ∧ 0 < 3
  ∧ deliveries (6 + 0) (throws_before 6) 1 {| taskId := "t1"; retryCount := Some 3 |}
    = (replicate (6 - 1) ({| taskId := "t1"; retryCount := Some (3 - 1) |}, Nack true)
       ++ [({| taskId := "t1"; retryCount := Some 3 |}, Ack)], Completed).
Proof.
  assert (1 ≤ 6)%nat as H1 by lia.
  assert (0 < 3) as H2 by lia.
  exact (conj H1 (conj H2 (proj1 (retry_until_success "t1" 3 6 0 H1) H2))).
Defined.

End RetryMore.

(** ** The circuit breaker *)

Section BreakerFacts.
Import Retry Breaker.

Local Abbreviation alert := ("agent.status.error", "circuit_breaker_open").

(** The answer to a delivery that does not open the circuit: an ack if the
    task was executed, a requeueing nack if it threw. *)
Local Abbreviation answer :=
  (λ e : Execution,
     match e with
     | Returns => Answered Ack
     | Throws => Answered (Nack true)
     end).

Lemma consume_cancelled st outcomes :
  consuming st = false → consume st outcomes = (st, []).
Proof. intros H. destruct outcomes; simpl; [done|]. by rewrite H. Qed.

Lemma consume_step st e rest :
  consuming st = true →
  consume st (e :: rest)
  = ((consume (handler e st).1 rest).1, (handler e st).2 :: (consume (handler e st).1 rest).2).
Proof.
  intros H. cbn [consume]. rewrite H. destruct (handler e st) as [st' a].
  cbn [fst snd]. by destruct (consume st' rest) as [st'' answers].
Qed.

Lemma consume_app a : ∀ st b,
  consume st (a ++ b)
  = ((consume (consume st a).1 b).1, (consume st a).2 ++ (consume (consume st a).1 b).2).
Proof.
  induction a as [| e a IH]; intros st b.
  - simpl. by destruct (consume st b).
  - destruct (consuming st) eqn:Hc.
    + rewrite <- app_comm_cons.
      rewrite (consume_step st e (a ++ b)), (consume_step st e a) by done.
      cbn [fst snd]. by rewrite IH.
    + rewrite (consume_cancelled st ((e :: a) ++ b)) by done.
      rewrite (consume_cancelled st (e :: a)) by done.
      cbn [fst snd]. by rewrite consume_cancelled.
Qed.

Lemma replicate_snoc_cons {A} (x : A) n l :
  replicate n x ++ x :: l = replicate (S n) x ++ l.
Proof. induction n as [| n IH]; simpl; [done|]. by rewrite IH. Qed.

(** What the handler does below the threshold, and at it. *)
Lemma handler_below st e :
  (e = Returns ∨ S (consecutiveFailures st) < failureThreshold)%nat →
  handler e st
  = ({| consecutiveFailures :=
          match e with Returns => 0 | Throws => S (consecutiveFailures st) end;
        consuming := consuming st;
        published := published st |}, answer e).
Proof.
  intros He. destruct e; [done|]. unfold handler.
  rewrite bool_decide_false; [done|]. destruct He as [[=] | ?]. lia.
Qed.

Lemma handler_opens st :
  (failureThreshold ≤ S (consecutiveFailures st))%nat →
  handler Throws st
  = ({| consecutiveFailures := S (consecutiveFailures st);
        consuming := false;
        published := published st ++ [alert] |}, Unanswered).
Proof. intros Hn. unfold handler. by rewrite bool_decide_true. Qed.

(** What a run of deliveries leaves behind, from a state in which the
    consumer is subscribed and has counted [consecutiveFailures] failures. *)
Lemma consume_inv outcomes : ∀ st,
  consuming st = true → (consecutiveFailures st < failureThreshold)%nat →
  let r := consume st outcomes in
  (consuming r.1 = true →
     (consecutiveFailures r.1 < failureThreshold)%nat
     ∧ r.2 = answer <$> outcomes
     ∧ published r.1 = published st)
  ∧ (consuming r.1 = false →
     ∃ pre post,
       outcomes = pre ++ Throws :: post
       ∧ consuming (consume st pre).1 = true
       ∧ S (consecutiveFailures (consume st pre).1) = failureThreshold
       ∧ r.2 = (answer <$> pre) ++ [Unanswered]
       ∧ published r.1 = published st ++ [alert]).
Proof.
  induction outcomes as [| e rest IH]; intros st Hc Hn.
  { simpl. split; [done|]. congruence. }
  cbn zeta. rewrite consume_step by done.
  assert ((e = Returns ∨ S (consecutiveFailures st) < failureThreshold)%nat
          ∨ (e = Throws ∧ failureThreshold ≤ S (consecutiveFailures st))%nat)
    as [Hbelow | [-> Hle]].
  { destruct e; [by left; left|].
    destruct (decide (S (consecutiveFailures st) < failureThreshold)%nat);
      [left; by right | right; split; [done | lia]]. }
  - (* the delivery is answered *)
    rewrite (handler_below st e Hbelow). cbn [fst snd].
    set (st1 := {| consecutiveFailures :=
                     match e with Returns => 0%nat | Throws => S (consecutiveFailures st) end;
                   consuming := consuming st; published := published st |}).
    assert (consuming st1 = true) as Hc1 by done.
    assert (consecutiveFailures st1 < failureThreshold)%nat as Hn1.
    { subst st1. cbn. destruct e; [unfold failureThreshold; lia|].
      destruct Hbelow as [[=] | ?]. lia. }
    destruct (IH st1 Hc1 Hn1) as [IHon IHoff]. split.
    + intros Hon. destruct (IHon Hon) as (? & -> & ?). by split_and!.
    + intros Hoff.
      destruct (IHoff Hoff) as (pre & post & -> & Hpre & Hcount & -> & Hpub).
      exists (e :: pre), post. rewrite (consume_step st e pre) by done.
      rewrite (handler_below st e Hbelow). cbn [fst snd].
      by split_and!.
  - (* the threshold is reached *)
    rewrite (handler_opens st Hle). cbn [fst snd].
    rewrite consume_cancelled by done. cbn [fst snd]. split; [done|]. intros _.
    exists [], rest. cbn. split_and!; [done | done | lia | done | done].
Qed.

(** The failures counted by a subscribed consumer are the last deliveries. *)
Lemma consume_counts pre : ∀ st,
  consuming st = true → (consecutiveFailures st < failureThreshold)%nat →
  consuming (consume st pre).1 = true →
  ∃ init, replicate (consecutiveFailures st) Throws ++ pre
          = init ++ replicate (consecutiveFailures (consume st pre).1) Throws.
Proof.
  induction pre as [| e pre IH]; intros st Hc Hn Hon.
  { exists []. cbn. by rewrite app_nil_r. }
  rewrite consume_step in Hon |- * by done. cbn [fst] in Hon |- *.
  assert ((e = Returns ∨ S (consecutiveFailures st) < failureThreshold)%nat
          ∨ (e = Throws ∧ failureThreshold ≤ S (consecutiveFailures st))%nat)
    as [Hbelow | [-> Hle]].
  { destruct e; [by left; left|].
    destruct (decide (S (consecutiveFailures st) < failureThreshold)%nat);
      [left; by right | right; split; [done | lia]]. }
  - rewrite (handler_below st e Hbelow) in Hon |- *. cbn [fst] in Hon |- *.
    set (st1 := {| consecutiveFailures :=
                     match e with Returns => 0%nat | Throws => S (consecutiveFailures st) end;
                   consuming := consuming st; published := published st |}) in *.
    assert (consecutiveFailures st1 < failureThreshold)%nat as Hn1.
    { subst st1. cbn. destruct e; [unfold failureThreshold; lia|].
      destruct Hbelow as [[=] | ?]. lia. }
    destruct (IH st1 Hc Hn1 Hon) as (init & Hinit). destruct e.
    + exists (replicate (consecutiveFailures st) Throws ++ Returns :: init).
      cbn in Hinit. rewrite <- app_assoc. f_equal. cbn. f_equal. exact Hinit.
    + exists init. cbn [consecutiveFailures st1] in Hinit.
      by rewrite replicate_snoc_cons.
  - rewrite handler_opens in Hon by lia. cbn [fst] in Hon.
    rewrite consume_cancelled in Hon by done. done.
Qed.

(** Five failures in a row open the circuit, whatever was counted before. *)
Lemma five_failures_open st :
  consuming st = true → (consecutiveFailures st < failureThreshold)%nat →
  consuming (consume st (replicate failureThreshold Throws)).1 = false.
Proof.
  intros Hc Hn. remember (failureThreshold - consecutiveFailures st)%nat as d eqn:Hd.
  assert (∀ k st, consuming st = true →
            (consecutiveFailures st + k ≥ failureThreshold)%nat →
            (consecutiveFailures st < failureThreshold)%nat →
            consuming (consume st (replicate k Throws)).1 = false) as Hgen.
  { clear. induction k as [| k IH]; intros st Hc Hk Hn; [lia|].
    cbn [replicate]. rewrite consume_step by done. unfold handler.
    case_bool_decide as Hopen.
    - by rewrite consume_cancelled.
    - simpl. apply IH; simpl; [done | lia | lia]. }
  apply Hgen; [done | lia | done].
Qed.

(** The consumer is cancelled exactly if five deliveries in a row throw. *)
Lemma cancelled_iff outcomes :
  consuming (consume initial outcomes).1 = false
  ↔ ∃ pre post, outcomes = pre ++ replicate 5 Throws ++ post.
Proof.
  assert (consuming initial = true) as Hc by done.
  assert (consecutiveFailures initial < failureThreshold)%nat as Hn
    by (unfold failureThreshold; simpl; lia).
  split.
  - intros H. destruct (consume_inv outcomes initial Hc Hn) as [_ Hoff].
    destruct (Hoff H) as (pre & post & -> & Hpre & Hcount & _).
    destruct (consume_counts pre initial Hc Hn Hpre) as (init & Hinit).
    cbn in Hinit. rewrite Hinit.
    assert (consecutiveFailures (consume initial pre).1 = 4%nat) as ->
      by (unfold failureThreshold in Hcount; lia).
    exists init, post. by rewrite <- app_assoc.
  - intros (pre & post & ->).
    rewrite consume_app. cbn [fst].
    destruct (consuming (consume initial pre).1) eqn:Hpre.
    + destruct (consume_inv pre initial Hc Hn) as [Hpre_on _].
      destruct (Hpre_on Hpre) as (Hlt & _).
      rewrite consume_app. cbn [fst].
      rewrite consume_cancelled; [| by apply five_failures_open].
      by apply five_failures_open.
    + by rewrite consume_cancelled.
Qed.

(** X11. The consumer is cancelled exactly if [executeTask] throws for five
    deliveries in a row.  As long as it is not, every delivery is answered,
    with an ack if the task was executed and with a requeueing nack if it
    threw, and no status event is published.  It is cancelled at the first
    delivery that completes five failures in a row: that delivery is left
    unanswered, every delivery before it was answered as said, no delivery
    after it is handled, and one [circuit_breaker_open] event has been
    published to [agent.status.error]. *)
Theorem circuit_breaker (outcomes : list Execution) :
  let r := consume initial outcomes in
  let answer := λ e : Execution,
    match e with
    | Returns => Answered Ack
    | Throws => Answered (Nack true)
    end in
  (consuming r.1 = false
   ↔ ∃ pre post, outcomes = pre ++ replicate 5 Throws ++ post)
  ∧ (consuming r.1 = true →
     r.2 = answer <$> outcomes ∧ published r.1 = [])
  ∧ (consuming r.1 = false →
     ∃ pre post,
       outcomes = pre ++ replicate 5 Throws ++ post
       ∧ (¬ ∃ a b, pre ++ replicate 4 Throws = a ++ replicate 5 Throws ++ b)
       ∧ r.2 = (answer <$> (pre ++ replicate 4 Throws)) ++ [Unanswered]
       ∧ published r.1 = [("agent.status.error", "circuit_breaker_open")]).
Proof.
  intros r. subst r. cbn zeta.
  assert (consuming initial = true) as Hc by done.
  assert (consecutiveFailures initial < failureThreshold)%nat as Hn
    by (unfold failureThreshold; simpl; lia).
  destruct (consume_inv outcomes initial Hc Hn) as [Hon Hoff].
  split_and!.
  - apply cancelled_iff.
  - intros H. destruct (Hon H) as (_ & ? & ?). by split.
  - intros H. destruct (Hoff H) as (pre & post & -> & Hpre & Hcount & -> & Hpub).
    destruct (consume_counts pre initial Hc Hn Hpre) as (init & Hinit).
    cbn in Hinit.
    assert (consecutiveFailures (consume initial pre).1 = 4%nat) as Hfour
      by (unfold failureThreshold in Hcount; lia).
    rewrite Hfour in Hinit. subst pre.
    exists init, post. split_and!.
    + by rewrite <- app_assoc.
    + intros Hrun. apply cancelled_iff in Hrun. congruence.
    + done.
    + done.
Qed.

End BreakerFacts.

(** ** First occurrences *)

Section FirstOccurrences.
Context {A K : Type} `{EqDecision K} (key : A → K).

(** The elements of a list whose key does not occur before them, in order. *)
Local Abbreviation kept l :=
  (omap id (imap (λ (i : nat) (x : A),
                    if decide (key x ∈ key <$> take i l) then None else Some x) l)).

Lemma kept_snoc l x :
  kept (l ++ [x]) = kept l ++ (if decide (key x ∈ key <$> l) then [] else [x]).
Proof.
  rewrite imap_app, omap_app. f_equal.
  - f_equal. apply imap_ext. intros i y Hi. cbn.
    rewrite take_app_le; [done|]. apply lookup_lt_Some in Hi. lia.
  - cbn. rewrite Nat.add_0_r, take_app_length. by case_decide.
Qed.

End FirstOccurrences.

(** ** Waiting for all results *)

Section CollectAllFacts.
Import Aggregation.

Local Abbreviation ids msgs := (list_to_set msgs.*1 : gset string).
Local Abbreviation first_reports msgs :=
  (omap id (imap (λ (i : nat) (m : string * string),
                    if decide (m.1 ∈ (take i msgs).*1) then None else Some m) msgs)).

Lemma map_set_keys k v m :
  (map_set k v m).*1 = if decide (k ∈ m.*1) then m.*1 else m.*1 ++ [k].
Proof.
  induction m as [| [k' v'] m IH].
  - cbn [map_set fmap list_fmap fst app].
    destruct (decide (k ∈ [])) as [Hin | Hin]; [by apply elem_of_nil in Hin | done].
  - cbn [map_set]. destruct (decide (k' = k)) as [-> | Hne].
    + cbn [fmap list_fmap fst].
      destruct (decide (k ∈ k :: m.*1)) as [Hin | Hin]; [done|].
      exfalso. apply Hin, list_elem_of_here.
    + cbn [fmap list_fmap fst]. fold (fmap (M:=list) (@fst string string)).
      rewrite IH.
      destruct (decide (k ∈ m.*1)) as [Hin | Hin];
        destruct (decide (k ∈ k' :: m.*1)) as [Hin' | Hin']; try done.
      * exfalso. by apply Hin', list_elem_of_further.
      * exfalso. apply elem_of_cons in Hin' as [? | ?]; congruence.
Qed.

Lemma map_set_to_map k v m :
  (list_to_map (map_set k v m) : gmap string string) = <[k := v]> (list_to_map m).
Proof.
  induction m as [| [k' v'] m IH]; simpl; [done|].
  destruct (decide (k' = k)) as [-> | Hne]; simpl.
  - by rewrite insert_insert_eq.
  - rewrite IH. by apply insert_insert_ne.
Qed.

Lemma map_set_nonempty k v m : (0 < length (map_set k v m))%nat.
Proof. destruct m as [| [k' v'] m]; cbn; [lia|]. destruct (decide (k' = k)); cbn; lia. Qed.

Lemma collectAllResults_snoc taskIds msgs m :
  collectAllResults taskIds (msgs ++ [m])
  = on_result taskIds (collectAllResults taskIds msgs) m.
Proof. unfold collectAllResults. by rewrite foldl_app. Qed.

Lemma ids_snoc msgs (m : string * string) :
  size (ids (msgs ++ [m]))
  = if decide (m.1 ∈ msgs.*1) then size (ids msgs) else S (size (ids msgs)).
Proof.
  rewrite fmap_app, list_to_set_app_L. cbn [fmap list_fmap list_to_set].
  case_decide as Hin.
  - f_equal. apply set_eq. intros x.
    rewrite !elem_of_union, elem_of_singleton, elem_of_empty, elem_of_list_to_set.
    split; [intros [? | [-> | []]]; done | by left].
  - rewrite size_union, size_union, size_singleton, size_empty; [lia | |].
    + apply disjoint_empty_r.
    + apply disjoint_union_r. split; [|apply disjoint_empty_r].
      apply disjoint_singleton_r. by rewrite elem_of_list_to_set.
Qed.

(** The map after the messages: one entry for each id reported, in the
    order of the first reports, with the result reported last. *)
Lemma collectAllResults_results taskIds msgs :
  (results (collectAllResults taskIds msgs)).*1 = (first_reports msgs).*1
  ∧ NoDup (results (collectAllResults taskIds msgs)).*1
  ∧ list_to_set (results (collectAllResults taskIds msgs)).*1 = ids msgs
  ∧ (list_to_map (results (collectAllResults taskIds msgs)) : gmap string string)
    = list_to_map (reverse msgs)
  ∧ length (results (collectAllResults taskIds msgs)) = size (ids msgs).
Proof.
  induction msgs as [| m msgs IH] using rev_ind.
  { split_and!; [done | apply NoDup_nil_2 | done | done | done]. }
  destruct IH as (Hkeys & Hnd & Hids & Hmap & Hlen).
  rewrite collectAllResults_snoc.
  set (st := collectAllResults taskIds msgs) in *.
  assert (results (on_result taskIds st m) = map_set m.1 m.2 (results st)) as ->
    by done.
  assert (m.1 ∈ (results st).*1 ↔ m.1 ∈ msgs.*1) as Hin.
  { rewrite <- (elem_of_list_to_set (C := gset string) m.1 (results st).*1), Hids.
    apply elem_of_list_to_set. }
  assert ((map_set m.1 m.2 (results st)).*1
          = (results st).*1 ++ (if decide (m.1 ∈ msgs.*1) then [] else [m.1])) as Hk.
  { rewrite map_set_keys.
    destruct (decide (m.1 ∈ (results st).*1)) as [H1 | H1];
      destruct (decide (m.1 ∈ msgs.*1)) as [H2 | H2];
      [by rewrite app_nil_r | tauto | tauto | done]. }
  assert (NoDup (map_set m.1 m.2 (results st)).*1) as Hnd'.
  { rewrite Hk. case_decide as H2; [by rewrite app_nil_r|].
    apply NoDup_app. split_and!; [done | | apply NoDup_singleton].
    intros x Hx ->%list_elem_of_singleton. tauto. }
  assert (list_to_set (map_set m.1 m.2 (results st)).*1 = ids (msgs ++ [m])) as Hids'.
  { rewrite Hk, fmap_app, !list_to_set_app_L, Hids.
    case_decide as H2; [|done]. cbn. apply set_eq. intros x.
    rewrite !elem_of_union, elem_of_singleton, elem_of_empty, elem_of_list_to_set.
    split; [tauto | intros [? | [-> | []]]; by left]. }
  split_and!.
  - rewrite Hk, Hkeys, kept_snoc, fmap_app. f_equal. by case_decide.
  - done.
  - done.
  - rewrite map_set_to_map, Hmap, reverse_app. simpl. by destruct m.
  - rewrite <- Hids', size_list_to_set by done. by rewrite length_fmap.
Qed.

(** X12. [collectAllResults] keeps one entry for each task id that has been
    reported, in the order the ids were first reported, with the result
    reported last for it.  It resolves at the message that reports the
    [taskIds.length]-th different task id, whether or not the ids are among
    [taskIds], with the results as they are at that moment, in the order of
    the map; nothing that follows changes that value.  So it resolves exactly
    if [taskIds] is not empty and at least as many different ids have been
    reported as [taskIds] has elements, and the array has the length of
    [taskIds]. *)
Theorem collectAllResults_spec (taskIds : list string)
    (msgs : list (string * string)) :
  let st := collectAllResults taskIds msgs in
  let ids : gset string := list_to_set msgs.*1 in
  (results st).*1
  = (omap id (imap (λ (i : nat) (m : string * string),
                      if decide (m.1 ∈ (take i msgs).*1) then None else Some m)
                msgs)).*1
  ∧ NoDup (results st).*1
  ∧ list_to_set (results st).*1 = ids
  ∧ (list_to_map (results st) : gmap string string) = list_to_map (reverse msgs)
  ∧ (∀ vs, resolved st = Some vs
           ↔ ∃ pre m post,
               msgs = pre ++ m :: post
               ∧ (m.1 ∉ pre.*1)
               ∧ S (size (list_to_set pre.*1 : gset string)) = length taskIds
               ∧ vs = (results (collectAllResults taskIds (pre ++ [m]))).*2)
  ∧ (is_Some (resolved st) ↔ (0 < length taskIds ≤ size ids)%nat)
  ∧ (∀ vs, resolved st = Some vs → length vs = length taskIds).
Proof.
  cbn zeta.
  destruct (collectAllResults_results taskIds msgs) as (Hkeys & Hnd & Hids & Hmap & _).
  assert ((∀ vs, resolved (collectAllResults taskIds msgs) = Some vs
                 ↔ ∃ pre m post,
                     msgs = pre ++ m :: post
                     ∧ (m.1 ∉ pre.*1)
                     ∧ S (size (ids pre)) = length taskIds
                     ∧ vs = (results (collectAllResults taskIds (pre ++ [m]))).*2)
          ∧ (is_Some (resolved (collectAllResults taskIds msgs))
             ↔ (0 < length taskIds ≤ size (ids msgs))%nat)) as [Hiff Hsome].
  2: { split_and!; [done | done | done | done | exact Hiff | exact Hsome |].
       intros vs (pre & m & post & _ & Hnew & Hsize & ->)%Hiff.
       rewrite length_fmap.
       destruct (collectAllResults_results taskIds (pre ++ [m])) as (_ & _ & _ & _ & ->).
       rewrite ids_snoc, decide_False by done. exact Hsize. }
  clear Hkeys Hnd Hids Hmap.
  induction msgs as [| m msgs IH] using rev_ind.
  { split.
    - intros vs. split; [done|]. intros (pre & m & post & Heq & _). by destruct pre.
    - split; [intros [? [=]]|]. cbn. rewrite size_empty. lia. }
  destruct IH as [Hiff Hsome].
  pose proof (collectAllResults_results taskIds (msgs ++ [m]))
    as (_ & _ & _ & _ & Hlen').
  pose proof (collectAllResults_results taskIds msgs) as (_ & _ & _ & _ & Hlen).
  pose proof (ids_snoc msgs m) as Hsnoc.
  rewrite collectAllResults_snoc in Hlen' |- *.
  set (st := collectAllResults taskIds msgs) in *.
  assert (resolved (on_result taskIds st m)
          = if bool_decide (size (ids (msgs ++ [m])) = length taskIds)
            then match resolved st with
                 | Some v => Some v
                 | None => Some (results (on_result taskIds st m)).*2
                 end
            else resolved st) as ->.
  { unfold on_result at 1. cbn [resolved].
    change (map_set m.1 m.2 (results st)) with (results (on_result taskIds st m)).
    by rewrite Hlen'. }
  (* a decomposition of the longer list ends at [m] or lies in [msgs] *)
  assert (∀ vs,
            (∃ pre m0 post,
               msgs ++ [m] = pre ++ m0 :: post
               ∧ (m0.1 ∉ pre.*1)
               ∧ S (size (ids pre)) = length taskIds
               ∧ vs = (results (collectAllResults taskIds (pre ++ [m0]))).*2)
            ↔ resolved st = Some vs
              ∨ ((m.1 ∉ msgs.*1) ∧ S (size (ids msgs)) = length taskIds
                 ∧ vs = (results (on_result taskIds st m)).*2)) as Hsplit.
  { intros vs. split.
    - intros (pre & m0 & post & Heq & Hnew & Hsize & ->).
      destruct post as [| p post _] using rev_ind.
      + apply app_inj_tail in Heq as [-> ->]. right.
        by rewrite collectAllResults_snoc.
      + rewrite app_comm_cons, app_assoc in Heq.
        apply app_inj_tail in Heq as [-> ->]. left.
        apply Hiff. by exists pre, m0, post.
    - intros [Hr | (Hnew & Hsize & ->)].
      + apply Hiff in Hr as (pre & m0 & post & -> & Hnew & Hsize & ->).
        exists pre, m0, (post ++ [m]). by rewrite <- app_assoc.
      + exists msgs, m, []. by rewrite collectAllResults_snoc. }
  split.
  + intros vs. rewrite Hsplit. case_bool_decide as Heq.
    * destruct (resolved st) as [v|] eqn:Hr.
      -- split; [by left|]. intros [? | (Hnew & Hsize & _)]; [done|].
         exfalso. assert (is_Some (Some v)) as Hv by by eexists.
         apply Hsome in Hv. lia.
      -- split.
         ++ intros [= <-]. right. split_and!; [| | done].
            ** intros Hin. rewrite decide_True in Hsnoc by done.
               assert (is_Some (resolved st)) as [? ?]; [|congruence].
               rewrite Hr. apply Hsome.
               assert (0 < length (results (on_result taskIds st m)))%nat.
               { apply map_set_nonempty. }
               lia.
            ** destruct (decide (m.1 ∈ msgs.*1)) as [Hin | Hin]; [|lia].
               exfalso.
               assert (is_Some (resolved st)) as [? ?]; [|congruence].
               rewrite Hr. apply Hsome.
               assert (0 < length (results (on_result taskIds st m)))%nat.
               { apply map_set_nonempty. }
               lia.
         ++ intros [[=] | (_ & _ & ->)]. done.
    * split; [by left|]. intros [? | (Hnew & Hsize & _)]; [done|].
      rewrite decide_False in Hsnoc by done. lia.
  + case_bool_decide as Heq.
    * assert (0 < length (results (on_result taskIds st m)))%nat.
      { apply map_set_nonempty. }
      split; [intros _; lia|]. intros _. by destruct (resolved st).
    * rewrite Hsome. destruct (decide (m.1 ∈ msgs.*1)); lia.
Qed.

End CollectAllFacts.

(** ** Deduplicating results *)

Section DeduplicateFacts.
Import Aggregation.
Context {Result Key : Type} `{Countable Key}.
Variable generateResultKey : Result → Key.

Local Abbreviation key := generateResultKey.
Local Abbreviation step := (dedup_step generateResultKey).
Local Abbreviation first_of_key l :=
  (omap id (imap (λ (i : nat) (r : Result),
                    if decide (key r ∈ key <$> take i l) then None else Some r) l)).

Lemma dedup_step_seen st r : key r ∈ st.1 → step st r = st.
Proof. intros Hin. unfold dedup_step. by rewrite decide_True. Qed.

Lemma dedup_step_new st r :
  key r ∉ st.1 → step st r = ({[key r]} ∪ st.1, st.2 ++ [r]).
Proof. intros Hin. unfold dedup_step. by rewrite decide_False. Qed.

(** The loop keeps the keys it has met and the first result of each. *)
Lemma dedup_run results :
  foldl step (∅, []) results
  = (list_to_set (key <$> results), first_of_key results).
Proof.
  induction results as [| r results IH] using rev_ind; [done|].
  rewrite foldl_app, IH. cbn [foldl]. rewrite kept_snoc, fmap_app, list_to_set_app_L.
  destruct (decide (key r ∈ key <$> results)) as [Hin | Hin].
  - rewrite dedup_step_seen by (by apply elem_of_list_to_set).
    rewrite app_nil_r. f_equal. cbn. apply set_eq. intros x.
    rewrite !elem_of_union, elem_of_singleton, elem_of_empty, elem_of_list_to_set.
    split; [by left | intros [? | [-> | []]]; done].
  - rewrite dedup_step_new by (cbn [fst]; by rewrite elem_of_list_to_set).
    cbn [fst snd]. f_equal. cbn. apply set_eq. intros x.
    rewrite !elem_of_union, elem_of_singleton, elem_of_empty. tauto.
Qed.

(** The loop from any state in which [seen] holds the keys of [unique]. *)
Lemma dedup_loop results : ∀ seen unique,
  seen = list_to_set (key <$> unique) → NoDup (key <$> unique) →
  let st := foldl step (seen, unique) results in
  st.1 = list_to_set (key <$> st.2)
  ∧ NoDup (key <$> st.2)
  ∧ (∃ added, st.2 = unique ++ added ∧ added `sublist_of` results
              ∧ (unique = [] → head added = head results))
  ∧ list_to_set (key <$> st.2)
    = (list_to_set (key <$> unique) ∪ list_to_set (key <$> results) : gset Key).
Proof.
  induction results as [| r results IH]; intros seen unique Hseen Hnd.
  { simpl. split_and!; try done.
    - exists []. by rewrite app_nil_r.
    - apply set_eq. intros x. rewrite elem_of_union, elem_of_empty. tauto. }
  cbn [foldl].
  destruct (decide (key r ∈ seen)) as [Hin | Hin];
    [rewrite dedup_step_seen by done | rewrite dedup_step_new by done];
    cbn [fst snd].
  - destruct (IH seen unique Hseen Hnd) as (H1 & H2 & (added & Ha & Hs & Hh) & H4).
    split_and!; try done.
    + exists added. split_and!; [done | by apply sublist_cons |].
      intros ->. exfalso. subst seen. by apply elem_of_empty in Hin.
    + rewrite H4. apply set_eq. intros x. subst seen.
      rewrite !elem_of_union, fmap_cons, list_to_set_cons, elem_of_union,
        elem_of_singleton.
      split; [tauto|]. intros [? | [-> | ?]]; tauto.
  - destruct (IH ({[key r]} ∪ seen) (unique ++ [r])) as (H1 & H2 & (added & Ha & Hs & Hh) & H4).
    + subst seen. rewrite fmap_app, list_to_set_app_L. simpl.
      apply set_eq. intros x.
      rewrite !elem_of_union, elem_of_singleton, elem_of_empty. tauto.
    + rewrite fmap_app. apply NoDup_app. split_and!; [done | | apply NoDup_singleton].
      intros x Hx ->%list_elem_of_singleton. apply Hin. subst seen.
      by apply elem_of_list_to_set.
    + split_and!; try done.
      * exists (r :: added). rewrite Ha, <- app_assoc. split_and!; try done.
        by apply sublist_skip.
      * rewrite H4, fmap_app, list_to_set_app_L. simpl.
        apply set_eq. intros x.
        rewrite !elem_of_union, elem_of_singleton, elem_of_empty. tauto.
Qed.

(** Results with different keys all pass. *)
Lemma dedup_loop_distinct results : ∀ seen unique,
  NoDup (key <$> results) → (∀ r, r ∈ results → key r ∉ seen) →
  (foldl step (seen, unique) results).2 = unique ++ results.
Proof.
  induction results as [| r results IH]; intros seen unique Hnd Hfresh.
  { simpl. by rewrite app_nil_r. }
  cbn [foldl].
  rewrite fmap_cons in Hnd. apply NoDup_cons in Hnd as [Hr Hnd].
  rewrite dedup_step_new by (apply Hfresh, list_elem_of_here).
  cbn [fst snd]. rewrite IH; [by rewrite <- app_assoc | done |].
  intros r' Hr' [Heq%elem_of_singleton | Hin]%elem_of_union.
  - apply Hr. rewrite <- Heq. by apply list_elem_of_fmap_2.
  - apply (Hfresh r'); [by apply list_elem_of_further | done].
Qed.

(** X14. [deduplicateResults] returns, in their order, exactly the results
    whose key does not occur among the results before them: of the results
    with one key it keeps the first and drops the others.  So the results it
    returns have pairwise different keys, form a subsequence of its input
    that starts with the first input, cover every key of the input, and are
    returned unchanged when deduplicated again. *)
Theorem deduplicateResults_spec (results : list Result) :
  let unique := deduplicateResults generateResultKey results in
  unique
  = omap id (imap (λ (i : nat) (r : Result),
                     if decide (generateResultKey r
                                ∈ generateResultKey <$> take i results)
                     then None else Some r) results)
  ∧ NoDup (generateResultKey <$> unique)
  ∧ unique `sublist_of` results
  ∧ head unique = head results
  ∧ (∀ r, r ∈ results → generateResultKey r ∈ generateResultKey <$> unique)
  ∧ deduplicateResults generateResultKey unique = unique.
Proof.
  intros unique. subst unique. unfold deduplicateResults.
  split; [by rewrite dedup_run|].
  destruct (dedup_loop results ∅ []) as (H1 & H2 & (added & Ha & Hs & Hh) & H4);
    [done | apply NoDup_nil_2 |].
  simpl in Ha. rewrite Ha in *. split_and!; try done.
  - by apply Hh.
  - intros r Hr.
    apply (elem_of_list_to_set (C := gset Key)). rewrite H4.
    apply elem_of_union. right. apply elem_of_list_to_set.
    by apply list_elem_of_fmap_2.
  - rewrite dedup_loop_distinct; [done | done |]. intros r _.
    apply not_elem_of_empty.
Qed.

End DeduplicateFacts.

(** ** Waiting for the agents *)

Section BarrierFacts.
Import Barrier.
Variable requiredAgents : list string.

Local Abbreviation step' := (step requiredAgents).
Local Abbreviation required := (list_to_set requiredAgents : gset string).

Lemma size_list_to_set_le (l : list string) :
  (size (list_to_set l : gset string) ≤ length l)%nat.
Proof.
  induction l as [| x l IH]; [done|].
  rewrite list_to_set_cons, size_union_alt, size_singleton. simpl.
  assert (size (list_to_set l ∖ {[x]} : gset string) ≤ size (list_to_set l : gset string))%nat
    by (apply subseteq_size; intros y [Hy _]%elem_of_difference; exact Hy).
  lia.
Qed.

Lemma size_list_to_set_lt (l : list string) :
  ¬ NoDup l → (size (list_to_set l : gset string) < length l)%nat.
Proof.
  induction l as [| x l IH]; intros Hnd.
  { exfalso. apply Hnd, NoDup_nil_2. }
  destruct (decide (x ∈ l)) as [Hin | Hin].
  - replace (list_to_set (x :: l) : gset string) with (list_to_set l : gset string).
    + pose proof (size_list_to_set_le l). simpl. lia.
    + rewrite list_to_set_cons. apply set_eq. intros y.
      rewrite elem_of_union, elem_of_singleton, elem_of_list_to_set.
      split; [tauto | by intros [-> | ?]].
  - assert (¬ NoDup l) as Hl.
    { intros Hl. apply Hnd. by apply NoDup_cons. }
    specialize (IH Hl).
    rewrite list_to_set_cons, size_union, size_singleton; [simpl; lia|].
    apply disjoint_singleton_l. by rewrite elem_of_list_to_set.
Qed.

Lemma step_ready_subseteq st e : ready st ⊆ required → ready (step' st e) ⊆ required.
Proof.
  intros Hsub. destruct e as [a|]; simpl.
  - unfold on_status. case_decide as Hin; [|done]. simpl.
    apply union_subseteq. split; [|done].
    apply singleton_subseteq_l. by apply elem_of_list_to_set.
  - case_match; [done|]. unfold test. by case_bool_decide.
Qed.

Lemma run_ready_subseteq events : ∀ st,
  ready st ⊆ required → ready (foldl step' st events) ⊆ required.
Proof.
  induction events as [| e events IH]; intros st Hsub; [done|].
  simpl. by apply IH, step_ready_subseteq.
Qed.

Lemma step_returned st e : returned st = true → returned (step' st e) = true.
Proof.
  intros Hr. destruct e as [a|]; simpl.
  - unfold on_status. by case_decide.
  - by rewrite Hr.
Qed.

Lemma run_returned events : ∀ st,
  returned st = true → returned (foldl step' st events) = true.
Proof.
  induction events as [| e events IH]; intros st Hr; [done|].
  simpl. by apply IH, step_returned.
Qed.

(** The set holds the required agents that have reported. *)
Lemma run_ready events : ∀ st a,
  a ∈ ready (foldl step' st events)
  ↔ a ∈ ready st ∨ (a ∈ requiredAgents ∧ a ∈ reported events).
Proof.
  induction events as [| e events IH]; intros st a.
  { simpl. split; [by left|]. intros [? | [_ ?%elem_of_nil]]; done. }
  cbn [foldl]. rewrite IH. destruct e as [b|]; simpl.
  - unfold on_status. case_decide as Hin; simpl.
    + rewrite elem_of_union, elem_of_singleton, elem_of_cons.
      split; [intros [[-> | ?] | [? ?]] | intros [? | [? [-> | ?]]]]; tauto.
    + rewrite elem_of_cons.
      split; [tauto | intros [? | [? [-> | ?]]]; tauto].
  - assert (ready (if returned st then st else test requiredAgents st) = ready st) as ->.
    { case_match; [done|]. unfold test. by case_bool_decide. }
    done.
Qed.

(** The loop leaves at the first test that finds the set as large as the list. *)
Lemma run_returns events : ∀ st,
  returned st = false →
  returned (foldl step' st events) = true
  ↔ ∃ pre post, events = pre ++ Woken :: post
      ∧ (length requiredAgents ≤ size (ready (foldl step' st pre)))%nat.
Proof.
  induction events as [| e events IH]; intros st Hr.
  { simpl. rewrite Hr. split; [done|]. intros (pre & post & H & _).
    by destruct pre. }
  cbn [foldl]. destruct e as [a|].
  - assert (returned (step' st (Status a)) = false) as Hr'.
    { simpl. unfold on_status. by case_decide. }
    rewrite (IH _ Hr'). split.
    + intros (pre & post & -> & Hsz). by exists (Status a :: pre), post.
    + intros (pre & post & Heq & Hsz). destruct pre as [| e pre]; [done|].
      injection Heq as <- ->. by exists pre, post.
  - simpl. rewrite Hr. unfold test. case_bool_decide as Hlt.
    + rewrite (IH _ Hr). split.
      * intros (pre & post & -> & Hsz). exists (Woken :: pre), post.
        split; [done|]. simpl. rewrite Hr. unfold test.
        by rewrite bool_decide_true.
      * intros (pre & post & Heq & Hsz). destruct pre as [| e pre].
        -- simpl in Hsz. lia.
        -- injection Heq as <- ->. exists pre, post. split; [done|].
           simpl in Hsz. rewrite Hr in Hsz. unfold test in Hsz.
           by rewrite bool_decide_true in Hsz.
    + rewrite run_returned by done. split; [|done]. intros _.
      exists [], events. split; [done|]. simpl. lia.
Qed.

End BarrierFacts.

Section BarrierClaims.
Import Barrier.

(** X15. When no agent is listed twice, [waitForAllAgents] returns at the
    first test of its loop that is made after every listed agent has
    reported ready, the test at the call included, and not before; the
    statuses of agents that are not listed change nothing. *)
Theorem waitForAllAgents_returns (requiredAgents : list string)
    (events : list Event) :
  NoDup requiredAgents →
  (returned (waitForAllAgents requiredAgents events) = true
   ↔ requiredAgents = []
     ∨ ∃ pre post, events = pre ++ Woken :: post
         ∧ ∀ a, a ∈ requiredAgents → a ∈ reported pre)
  ∧ ready (waitForAllAgents requiredAgents events) ⊆ list_to_set requiredAgents.
Proof.
  intros Hnd. unfold waitForAllAgents. split.
  2: { apply run_ready_subseteq. unfold test. by case_bool_decide. }
  unfold test. cbn [ready]. rewrite size_empty.
  destruct requiredAgents as [| a0 rest] eqn:Hreq.
  { rewrite bool_decide_false by (simpl; lia).
    rewrite run_returned by done. split; [by left | done]. }
  rewrite bool_decide_true by (simpl; lia). rewrite <- Hreq in *.
  rewrite run_returns by done. split.
  - intros (pre & post & -> & Hsz). right. exists pre, post. split; [done|].
    intros a Ha.
    assert (ready (foldl (step requiredAgents) {| ready := ∅; returned := false |} pre)
            = list_to_set requiredAgents) as Heq.
    { apply set_subseteq_size_eq.
      - by apply run_ready_subseteq.
      - rewrite size_list_to_set by done. lia. }
    assert (a ∈ ready (foldl (step requiredAgents)
                         {| ready := ∅; returned := false |} pre)) as Hin
      by (rewrite Heq; by apply elem_of_list_to_set).
    apply run_ready in Hin as [Hin | [_ Hin]]; [by apply elem_of_empty in Hin | done].
  - intros [Hnil | (pre & post & -> & Hall)]; [congruence|].
    exists pre, post. split; [done|].
    rewrite <- (size_list_to_set (C := gset string)) by done.
    apply subseteq_size. intros a Ha%elem_of_list_to_set.
    apply run_ready. right. split; [done | by apply Hall].
Qed.

Lemma waitForAllAgents_returns_witness :
  NoDup ["agent-1"; "agent-2"]
  ∧ returned (waitForAllAgents ["agent-1"; "agent-2"]
                [Status "agent-2"; Woken; Status "agent-9"; Status "agent-1"; Woken])
    = true.
Proof.
  assert (NoDup ["agent-1"; "agent-2"]) as Hnd.
  { apply NoDup_cons. split; [|apply NoDup_singleton].
    intros ?%list_elem_of_singleton. discriminate. }
  split; [exact Hnd|].
  apply (proj1 (waitForAllAgents_returns ["agent-1"; "agent-2"]
                  [Status "agent-2"; Woken; Status "agent-9"; Status "agent-1"; Woken]
                  Hnd)).
  right. exists [Status "agent-2"; Woken; Status "agent-9"; Status "agent-1"], [].
  split; [done|]. intros a Ha. simpl.
  apply elem_of_cons in Ha as [-> | Ha%list_elem_of_singleton]; set_solver.
Defined.

(** X16. When an agent is listed twice, [waitForAllAgents] never returns,
    whatever statuses arrive: the set cannot grow to the length of the list. *)
Theorem waitForAllAgents_duplicate_never_returns (requiredAgents : list string)
    (events : list Event) :
  ¬ NoDup requiredAgents →
  returned (waitForAllAgents requiredAgents events) = false.
Proof.
  intros Hdup. destruct (returned _) eqn:Hret; [|done]. exfalso.
  unfold waitForAllAgents, test in Hret. cbn [ready] in Hret.
  pose proof (size_list_to_set_lt requiredAgents Hdup) as Hlt.
  rewrite size_empty in Hret.
  rewrite bool_decide_true in Hret by lia.
  apply run_returns in Hret as (pre & post & _ & Hsz); [|done].
  assert (size (ready (foldl (step requiredAgents)
                         {| ready := ∅; returned := false |} pre))
          ≤ size (list_to_set requiredAgents : gset string))%nat.
  { apply subseteq_size. by apply run_ready_subseteq. }
  lia.
Qed.

Lemma waitForAllAgents_duplicate_never_returns_witness :
  ¬ NoDup ["agent-1"; "agent-1"]
  ∧ returned (waitForAllAgents ["agent-1"; "agent-1"]
                [Status "agent-1"; Woken; Status "agent-1"; Woken]) = false.
Proof.
  assert (¬ NoDup ["agent-1"; "agent-1"]) as Hdup.
  { intros [Hin _]%NoDup_cons. apply Hin, list_elem_of_here. }
  exact (conj Hdup (waitForAllAgents_duplicate_never_returns _ _ Hdup)).
Defined.

End BarrierClaims.

(** ** Validating a task configuration *)

Section ValidatorFacts.
Import Validators.
Context {object : Type}.
Variable ToPrimitive : object → option primitive.
Variable StringToNumber : string → number.

(** The values [!x] is true of. *)
Local Abbreviation falsy v :=
  (v = Primitive Undefined ∨ v = Primitive Null ∨ v = Primitive (Boolean false)
   ∨ v = Primitive (Number NaN) ∨ (∃ e, v = Primitive (Number (Finite 0 e)))
   ∨ v = Primitive (BigInt 0) ∨ v = Primitive (String "")).

(** The numbers and the primitives below zero. *)
Local Abbreviation below n :=
  (n = Infinite true ∨ ∃ m e, n = Finite m e ∧ m < 0).
Local Abbreviation below_zero p :=
  ((∃ n, p = Number n ∧ below n)
   ∨ (∃ z, p = BigInt z ∧ z < 0)
   ∨ (∃ s, p = String s ∧ below (StringToNumber s))).

(** The primitive a value is compared as. *)
Local Abbreviation compared_as v p :=
  (v = Primitive p ∨ ∃ o : object, v = Object o ∧ ToPrimitive o = Some p).

Local Ltac split_falsy H :=
  destruct H as [H | [H | [H | [H | [[? H] | [H | H]]]]]].

Lemma ToBoolean_false (v : value object) : ToBoolean v = false ↔ falsy v.
Proof.
  destruct v as [[| | [|] | [| neg | m e] | z | s |] | o]; cbn.
  - split; [by left | done].
  - split; [right; by left | done].
  - split; [done | intros H; split_falsy H; done].
  - split; [do 2 right; by left | done].
  - split; [do 3 right; by left | done].
  - split; [done | intros H; split_falsy H; done].
  - rewrite bool_decide_eq_false. split.
    + intros Hm. assert (m = 0) as -> by (destruct (decide (m = 0)); [done | tauto]).
      do 4 right. left. by exists e.
    + intros H Hm. split_falsy H; try done. injection H as -> _. done.
  - rewrite bool_decide_eq_false. split.
    + intros Hz. assert (z = 0) as -> by (destruct (decide (z = 0)); [done | tauto]).
      do 5 right. by left.
    + intros H Hz. split_falsy H; try done. injection H as ->. done.
  - rewrite bool_decide_eq_false. split.
    + intros Hs. assert (s = "") as -> by (destruct (decide (s = "")); [done | tauto]).
      do 6 right. done.
    + intros H Hs. split_falsy H; try done. injection H as ->. done.
  - split; [done | intros H; split_falsy H; done].
  - split; [done | intros H; split_falsy H; done].
Qed.

Lemma negative_true n : negative n = true ↔ below n.
Proof.
  destruct n as [| [|] | m e]; cbn.
  - split; [done | intros [[=] | (? & ? & [=] & _)]].
  - split; [by left | done].
  - split; [done | intros [[=] | (? & ? & [=] & _)]].
  - rewrite bool_decide_eq_true. split.
    + intros Hm. right. by exists m, e.
    + intros [[=] | (? & ? & [= -> ->] & ?)]. done.
Qed.

Lemma lt_zero_primitive_true p :
  lt_zero_primitive StringToNumber p = Some true ↔ below_zero p.
Proof.
  destruct p as [| | b | n | z | s |]; cbn.
  - split; [done | intros [(? & [=] & _) | [(? & [=] & _) | (? & [=] & _)]]].
  - split; [done | intros [(? & [=] & _) | [(? & [=] & _) | (? & [=] & _)]]].
  - split; [done | intros [(? & [=] & _) | [(? & [=] & _) | (? & [=] & _)]]].
  - split.
    + intros [= Hn]. left. exists n. split; [done|]. by apply negative_true.
    + intros [(? & [= <-] & Hn) | [(? & [=] & _) | (? & [=] & _)]].
      f_equal. by apply negative_true.
  - split.
    + intros [= Hz%bool_decide_eq_true]. right. left. by exists z.
    + intros [(? & [=] & _) | [(? & [= <-] & Hz) | (? & [=] & _)]].
      f_equal. by apply bool_decide_eq_true.
  - split.
    + intros [= Hn]. right. right. exists s. split; [done|]. by apply negative_true.
    + intros [(? & [=] & _) | [(? & [=] & _) | (? & [= <-] & Hn)]].
      f_equal. by apply negative_true.
  - split; [done | intros [(? & [=] & _) | [(? & [=] & _) | (? & [=] & _)]]].
Qed.

Lemma lt_zero_primitive_throws p :
  lt_zero_primitive StringToNumber p = None ↔ p = Symbol.
Proof. by destruct p. Qed.

Lemma lt_zero_true (v : value object) :
  lt_zero ToPrimitive StringToNumber v = Some true
  ↔ ∃ p, compared_as v p ∧ below_zero p.
Proof.
  destruct v as [p | o]; cbn.
  - rewrite lt_zero_primitive_true. split.
    + intros Hp. exists p. split; [by left | done].
    + intros (p' & [[= <-] | (? & [=] & _)] & Hp). done.
  - destruct (ToPrimitive o) as [p|] eqn:Ho.
    + rewrite lt_zero_primitive_true. split.
      * intros Hp. exists p. split; [right; by exists o | done].
      * intros (p' & [[=] | (o' & [= <-] & Ho')] & Hp).
        rewrite Ho in Ho'. by injection Ho' as <-.
    + split; [done|].
      intros (p' & [[=] | (o' & [= <-] & Ho')] & _). congruence.
Qed.

Lemma lt_zero_throws (v : value object) :
  lt_zero ToPrimitive StringToNumber v = None
  ↔ compared_as v Symbol ∨ ∃ o, v = Object o ∧ ToPrimitive o = None.
Proof.
  destruct v as [p | o]; cbn.
  - rewrite lt_zero_primitive_throws. split.
    + intros ->. left. by left.
    + intros [[[= ->] | (? & [=] & _)] | (? & [=] & _)]. done.
  - destruct (ToPrimitive o) as [p|] eqn:Ho.
    + rewrite lt_zero_primitive_throws. split.
      * intros ->. left. right. by exists o.
      * intros [[[=] | (o' & [= <-] & Ho')] | (o' & [= <-] & Ho')]; congruence.
    + split; [|done]. intros _. right. by exists o.
Qed.

(** X17. [validateTaskConfig] throws for a config that is [null] or
    [undefined].  For every other config it answers ['Missing type'] exactly
    when [config.type] is falsy ([undefined], [null], [false], [0], [NaN],
    [0n] or the empty string), whatever the timeout; otherwise ['Invalid
    timeout'] exactly when [config.timeout] is falsy or compares below zero,
    an exception exactly when the comparison throws (a symbol, or an object
    whose conversion throws), and [valid: true] in every other case.  So a
    timeout of [0] is refused like a missing one, a number is accepted as
    timeout exactly if it is above zero, and a type or a timeout need not be
    a string or a number to be accepted. *)
Theorem validateTaskConfig_spec (type timeout : value object) :
  let out := validateTaskConfig ToPrimitive StringToNumber (Fields type timeout) in
  let falsy := λ v : value object,
    v = Primitive Undefined ∨ v = Primitive Null ∨ v = Primitive (Boolean false)
    ∨ v = Primitive (Number NaN) ∨ (∃ e, v = Primitive (Number (Finite 0 e)))
    ∨ v = Primitive (BigInt 0) ∨ v = Primitive (String "") in
  let below := λ n : number,
    n = Infinite true ∨ ∃ m e, n = Finite m e ∧ m < 0 in
  let compared_as := λ (v : value object) (p : primitive),
    v = Primitive p ∨ ∃ o, v = Object o ∧ ToPrimitive o = Some p in
  let below_zero := λ v : value object,
    ∃ p, compared_as v p
         ∧ ((∃ n, p = Number n ∧ below n)
            ∨ (∃ z, p = BigInt z ∧ z < 0)
            ∨ (∃ s, p = String s ∧ below (StringToNumber s))) in
  let throws := λ v : value object,
    compared_as v Symbol ∨ ∃ o, v = Object o ∧ ToPrimitive o = None in
  validateTaskConfig ToPrimitive StringToNumber Nullish = Thrown
  ∧ (out = Returned {| valid := false; error := Some "Missing type" |}
     ↔ falsy type)
  ∧ (out = Returned {| valid := false; error := Some "Invalid timeout" |}
     ↔ ¬ falsy type ∧ (falsy timeout ∨ below_zero timeout))
  ∧ (out = Thrown ↔ ¬ falsy type ∧ ¬ falsy timeout ∧ throws timeout)
  ∧ (out = Returned {| valid := true; error := None |}
     ↔ ¬ falsy type ∧ ¬ falsy timeout ∧ ¬ below_zero timeout ∧ ¬ throws timeout)
  ∧ (∀ n, ¬ falsy type → timeout = Primitive (Number n) →
       (out = Returned {| valid := true; error := None |}
        ↔ n = Infinite false ∨ ∃ m e, n = Finite m e ∧ 0 < m)
       ∧ (out ≠ Returned {| valid := true; error := None |}
          → out = Returned {| valid := false; error := Some "Invalid timeout" |})).
Proof.
  cbn zeta.
  pose proof (ToBoolean_false type) as Hty.
  pose proof (ToBoolean_false timeout) as Htm.
  pose proof (lt_zero_true timeout) as Hlt.
  pose proof (lt_zero_throws timeout) as Hthrow.
  assert (∀ n, timeout = Primitive (Number n) →
            lt_zero ToPrimitive StringToNumber timeout = Some (negative n)
            ∧ (ToBoolean timeout = true ∧ negative n = false
               ↔ n = Infinite false ∨ ∃ m e, n = Finite m e ∧ 0 < m)) as Hnum.
  { intros n ->. split; [done|]. destruct n as [| [|] | m e]; cbn.
    - split; [intros [[=] _] | intros [[=] | (? & ? & [=] & _)]].
    - split; [intros [_ [=]] | intros [[=] | (? & ? & [=] & _)]].
    - split; [by left | done].
    - rewrite bool_decide_eq_true, bool_decide_eq_false. split.
      + intros [? ?]. right. exists m, e. split; [done | lia].
      + intros [[=] | (? & ? & [= <- <-] & ?)]. lia. }
  unfold validateTaskConfig. cbv beta.
  set (F1 := falsy type) in *.
  set (F2 := falsy timeout) in *.
  set (BZ := ∃ p, compared_as timeout p ∧ below_zero p) in *.
  set (TH := compared_as timeout Symbol
             ∨ ∃ o, timeout = Object o ∧ ToPrimitive o = None) in *.
  clearbody F1 F2 BZ TH.
  destruct (ToBoolean type) eqn:Btype; cbn [negb].
  2: { assert F1 as Hf by by apply Hty.
       split_and!; [done | done | | | |].
       - split; [done | tauto].
       - split; [done | tauto].
       - split; [done | tauto].
       - intros n Hn. tauto. }
  assert (¬ F1) as Hf by (rewrite <- Hty; congruence).
  destruct (ToBoolean timeout) eqn:Btm; cbn [negb].
  2: { assert F2 as Hg by by apply Htm.
       split_and!; [done | | | | |].
       - split; [done | tauto].
       - split; [tauto | done].
       - split; [done | tauto].
       - split; [done | tauto].
       - intros n _ Hn. destruct (Hnum n Hn) as [_ Hpos]. split; [|done].
         split; [done|]. intros Hp. apply Hpos in Hp as [[=] _]. }
  assert (¬ F2) as Hg by (rewrite <- Htm; congruence).
  destruct (lt_zero ToPrimitive StringToNumber timeout) as [[|]|] eqn:Blt.
  - assert BZ as Hb by by apply Hlt.
    split_and!; [done | | | | |].
    + split; [done | tauto].
    + split; [tauto | done].
    + split; [done|]. intros (_ & _ & Ht). apply Hthrow in Ht. done.
    + split; [done | tauto].
    + intros n _ Hn. destruct (Hnum n Hn) as [Hneg Hpos]. split; [|done].
      split; [done|]. intros Hp. apply Hpos in Hp as [_ Hp]. congruence.
  - assert (¬ BZ) as Hb
      by (rewrite <- Hlt; congruence).
    assert (¬ TH) as Ht
      by (rewrite <- Hthrow; congruence).
    split_and!; [done | | | | |].
    + split; [done | tauto].
    + split; [done | tauto].
    + split; [done | tauto].
    + split; [tauto | done].
    + intros n _ Hn. destruct (Hnum n Hn) as [Hneg Hpos]. split; [|done].
      split; [|done]. intros _. apply Hpos. split; [done | congruence].
  - assert TH as Ht
      by by apply Hthrow.
    split_and!; [done | | | | |].
    + split; [done | tauto].
    + split; [done|]. intros [_ [? | Hb]]; [tauto|]. apply Hlt in Hb. done.
    + split; [tauto | done].
    + split; [done | tauto].
    + intros n _ Hn. destruct (Hnum n Hn) as [Hneg _]. congruence.
Qed.

(** Two configurations that are neither a string type with a number timeout:
    [{ type: 1, timeout: 5 }], and [{ type: 'x', timeout: 'soon' }] with a
    conversion that makes ['soon'] not a number. *)
Lemma validateTaskConfig_accepts_other_types :
  validateTaskConfig ToPrimitive StringToNumber
    (Fields (Primitive (Number (Finite 1 0))) (Primitive (Number (Finite 5 0))))
  = Returned {| valid := true; error := None |}
  ∧ (StringToNumber "soon" = NaN →
     validateTaskConfig ToPrimitive StringToNumber
       (Fields (Primitive (String "x")) (Primitive (String "soon")))
     = Returned {| valid := true; error := None |}).
Proof.
  split; [done|]. intros Hsoon. cbn. rewrite Hsoon. done.
Qed.

End ValidatorFacts.

(** ** The helpers of the integration tests *)

Section HarnessFacts.
Import JS Identity Routing Harness.
Context {rng : Type} (uuidv4 : rng → string * rng).

(** X18. A test client created without a name is ['test-agent'], whatever
    [AGENT_ID] holds and without drawing an identifier, so that two of them
    declare the same result queue; a non-empty name is kept as given; the
    default applies to a missing argument only, a [null] or empty name is
    resolved as for a client with no configured identity. *)
Theorem createTestClient_identity (env env' : Env) (g g' : rng) (ch ch' : Channel) :
  createTestClient uuidv4 VUndefined env g = ({| agentId := VString "test-agent" |}, g)
  ∧ (setupBrainstormResultQueue (createTestClient uuidv4 VUndefined env g).1 ch).1
    = (setupBrainstormResultQueue (createTestClient uuidv4 VUndefined env' g').1 ch').1
  ∧ (∀ name, name ≠ "" →
       createTestClient uuidv4 (VString name) env g = ({| agentId := VString name |}, g))
  ∧ createTestClient uuidv4 VNull env g
    = new_RabbitMQClient uuidv4 {| cfg_agentId := VUndefined |} env g
  ∧ createTestClient uuidv4 (VString "") env g
    = new_RabbitMQClient uuidv4 {| cfg_agentId := VUndefined |} env g.
Proof.
  split_and!.
  - reflexivity.
  - reflexivity.
  - intros name Hname. unfold createTestClient, new_RabbitMQClient, generate.
    cbn [param_default cfg_agentId]. unfold or_else.
    by rewrite truthy_VString.
  - reflexivity.
  - reflexivity.
Qed.

End HarnessFacts.

Section WaitFacts.
Import Harness.

Lemma attempt_spec (connects : nat → bool) : ∀ remaining i,
  let w := attempt connects remaining i in
  (ready w = true
   → (i < attempts w ≤ i + remaining)%nat
     ∧ connects (attempts w - 1)%nat = true
     ∧ (∀ j, (i ≤ j < attempts w - 1)%nat → connects j = false)
     ∧ sleeps w = (attempts w - 1)%nat)
  ∧ (ready w = false
     → (∀ j, (i ≤ j < i + remaining)%nat → connects j = false)
       ∧ attempts w = (i + remaining)%nat ∧ sleeps w = (i + remaining)%nat).
Proof.
  induction remaining as [| remaining IH]; intros i; cbn [attempt].
  { cbn. split; [done|]. intros _. split_and!; [intros j ?; lia | lia | lia]. }
  destruct (connects i) eqn:Hi.
  - cbn. split; [|done]. intros _.
    rewrite Nat.sub_0_r.
    split_and!; [lia | lia | done | intros j ?; lia | done].
  - destruct (IH (S i)) as [IHt IHf]. cbn zeta in *. split.
    + intros Hr. destruct (IHt Hr) as (Hb & Hc & Hfirst & Hs).
      split_and!; [lia | lia | done | | done].
      intros j Hj. destruct (decide (j = i)) as [-> | Hne]; [done|].
      apply Hfirst. lia.
    + intros Hr. destruct (IHf Hr) as (Hnone & Ha & Hs).
      split_and!; [| lia | lia].
      intros j Hj. destruct (decide (j = i)) as [-> | Hne]; [done|].
      apply Hnone. lia.
Qed.

(** X19. [waitForRabbitMQ] returns exactly when one of its first
    [maxAttempts] rounds (30 by default) connects; it then stops at the first
    such round, having slept once for each round that failed.  Otherwise it
    throws after [maxAttempts] attempts and as many sleeps, the last of them
    after the final failure; with [maxAttempts] at zero or below it throws
    without attempting a connection. *)
Theorem waitForRabbitMQ_spec (maxAttempts : option Z) (connects : nat → bool) :
  let n := Z.to_nat (default 30 maxAttempts) in
  let w := waitForRabbitMQ maxAttempts connects in
  (ready w = true ↔ ∃ i, (i < n)%nat ∧ connects i = true)
  ∧ (ready w = true
     → (1 ≤ attempts w ≤ n)%nat
       ∧ connects (attempts w - 1)%nat = true
       ∧ (∀ j, (j < attempts w - 1)%nat → connects j = false)
       ∧ sleeps w = (attempts w - 1)%nat)
  ∧ (ready w = false → attempts w = n ∧ sleeps w = n)
  ∧ (default 30 maxAttempts ≤ 0 → ready w = false ∧ attempts w = 0%nat).
Proof.
  intros n w. subst w. unfold waitForRabbitMQ. fold n.
  destruct (attempt_spec connects n 0) as [Ht Hf]. cbn zeta in *.
  assert (ready (attempt connects n 0) = true
          → (1 ≤ attempts (attempt connects n 0) ≤ n)%nat
            ∧ connects (attempts (attempt connects n 0) - 1)%nat = true
            ∧ (∀ j, (j < attempts (attempt connects n 0) - 1)%nat → connects j = false)
            ∧ sleeps (attempt connects n 0) = (attempts (attempt connects n 0) - 1)%nat)
    as Ht'.
  { intros Hr. destruct (Ht Hr) as (Hb & Hc & Hfirst & Hs).
    split_and!; [lia | lia | done | | done]. intros j Hj. apply Hfirst. lia. }
  split_and!.
  - split.
    + intros Hr. destruct (Ht' Hr) as (Hb & Hc & _).
      exists (attempts (attempt connects n 0) - 1)%nat. split; [lia | done].
    + intros (i & Hi & Hc). destruct (ready (attempt connects n 0)) eqn:Hr; [done|].
      destruct (Hf eq_refl) as (Hnone & _). rewrite Hnone in Hc by lia. done.
  - exact Ht'.
  - intros Hr. destruct (Hf Hr) as (_ & Ha & Hs). split; lia.
  - intros Hle. assert (n = 0%nat) as -> by (unfold n; lia). done.
Qed.

Lemma poll_spec (startTime timeoutMs : Z) : ∀ rounds,
  let within := λ p : Z * bool, p.1 - startTime < timeoutMs ∧ p.2 = false in
  match poll startTime timeoutMs rounds with
  | (Some true, n) =>
      ∃ pre now post, rounds = pre ++ (now, true) :: post
        ∧ Forall within pre ∧ now - startTime < timeoutMs ∧ n = S (length pre)
  | (Some false, n) =>
      ∃ pre now holds post, rounds = pre ++ (now, holds) :: post
        ∧ Forall within pre ∧ timeoutMs ≤ now - startTime ∧ n = length pre
  | (None, n) => Forall within rounds ∧ n = length rounds
  end.
Proof.
  intros rounds within. induction rounds as [| [now holds] rest IH]; cbn [poll].
  { split; [apply Forall_nil_2 | done]. }
  case_bool_decide as Hnow.
  - destruct holds.
    + exists [], now, rest. split_and!; [done | apply Forall_nil_2 | done | done].
    + destruct (poll startTime timeoutMs rest) as [[[|]|] n].
      * destruct IH as (pre & now' & post & -> & Hpre & Hlt & ->).
        exists ((now, false) :: pre), now', post.
        split_and!; [done | by apply Forall_cons | done | done].
      * destruct IH as (pre & now' & holds' & post & -> & Hpre & Hge & ->).
        exists ((now, false) :: pre), now', holds', post.
        split_and!; [done | by apply Forall_cons | done | done].
      * destruct IH as [Hall ->]. split; [by apply Forall_cons | done].
  - exists [], now, holds, rest.
    split_and!; [done | apply Forall_nil_2 | lia | done].
Qed.

(** X20. [waitForCondition] returns [true] exactly when the condition holds
    at a check made before the time is up (5000 ms by default) and every
    earlier check was also made in time and found it false; it returns
    [false] at the first reading of the clock that is past the time, without
    evaluating the condition again.  The condition is evaluated once per
    round entered, so that a timeout of zero or less never evaluates it. *)
Theorem waitForCondition_spec (timeoutMs : option Z) (startTime : Z)
    (rounds : list (Z * bool)) :
  let limit := default 5000 timeoutMs in
  let within := λ p : Z * bool, p.1 - startTime < limit ∧ p.2 = false in
  let result := waitForCondition timeoutMs startTime rounds in
  (result.1 = Some true
   ↔ ∃ pre now post, rounds = pre ++ (now, true) :: post
       ∧ Forall within pre ∧ now - startTime < limit)
  ∧ (result.1 = Some false
     ↔ ∃ pre now holds post, rounds = pre ++ (now, holds) :: post
         ∧ Forall within pre ∧ limit ≤ now - startTime)
  ∧ (result.1 = Some true → ∃ pre, pre `prefix_of` rounds ∧ result.2 = S (length pre)
                                    ∧ Forall within pre)
  ∧ (result.1 = Some false → ∃ pre, pre `prefix_of` rounds ∧ result.2 = length pre
                                     ∧ Forall within pre)
  ∧ (limit ≤ 0 → ∀ now holds rest, rounds = (now, holds) :: rest → startTime ≤ now →
       result = (Some false, 0%nat)).
Proof.
  intros limit within result. subst result. unfold waitForCondition. fold limit.
  pose proof (poll_spec startTime limit rounds) as Hspec. cbn zeta in Hspec.
  fold within in Hspec.
  (* two decompositions of [rounds] at the first round that is not [within]
     agree *)
  assert (∀ pre1 x1 post1 pre2 x2 post2,
            pre1 ++ x1 :: post1 = pre2 ++ x2 :: post2 →
            Forall within pre1 → Forall within pre2 →
            ¬ within x1 → ¬ within x2 → pre1 = pre2 ∧ x1 = x2) as Huniq.
  { induction pre1 as [| y pre1 IHp]; intros x1 post1 pre2 x2 post2 Heq H1 H2 Hx1 Hx2.
    - destruct pre2 as [| z pre2]; [by injection Heq as -> _|].
      injection Heq as -> _. by apply Forall_cons in H2 as [? _].
    - destruct pre2 as [| z pre2].
      + injection Heq as -> _. by apply Forall_cons in H1 as [? _].
      + injection Heq as -> Heq. apply Forall_cons in H1 as [_ H1].
        apply Forall_cons in H2 as [_ H2].
        destruct (IHp _ _ _ _ _ Heq H1 H2 Hx1 Hx2) as [-> ->]. done. }
  assert (∀ now, ¬ within (now, true)) as Htrue by (intros now [_ [=]]).
  assert (∀ now holds, limit ≤ now - startTime → ¬ within (now, holds)) as Hlate.
  { intros now holds Hge [Hlt _]. cbn in Hlt. lia. }
  destruct (poll startTime limit rounds) as [[[|]|] n]; cbn [fst snd].
  - destruct Hspec as (pre & now & post & -> & Hpre & Hlt & ->). split_and!.
    + split; [|done]. intros _. by exists pre, now, post.
    + split; [done|]. intros (pre' & now' & holds' & post' & Heq & Hpre' & Hge).
      destruct (Huniq _ _ _ _ _ _ Heq Hpre Hpre' (Htrue _) (Hlate _ _ Hge))
        as [_ [= -> _]]. lia.
    + intros _. exists pre. split_and!; [by eexists | done | done].
    + done.
    + intros Hle now' holds' rest Heq Hstart. exfalso.
      destruct pre as [| p pre]; injection Heq as -> _.
      * cbn in Hlt. lia.
      * apply Forall_cons in Hpre as [[Hp _] _]. cbn in Hp. lia.
  - destruct Hspec as (pre & now & holds & post & -> & Hpre & Hge & ->). split_and!.
    + split; [done|]. intros (pre' & now' & post' & Heq & Hpre' & Hlt).
      destruct (Huniq _ _ _ _ _ _ Heq Hpre Hpre' (Hlate _ _ Hge) (Htrue _))
        as [_ [= -> _]]. lia.
    + split; [|done]. intros _. by exists pre, now, holds, post.
    + done.
    + intros _. exists pre. split_and!; [by eexists | done | done].
    + intros Hle now' holds' rest Heq Hstart.
      destruct pre as [| p pre]; [done|]. exfalso. injection Heq as -> _.
      apply Forall_cons in Hpre as [[Hp _] _]. cbn in Hp. lia.
  - destruct Hspec as [Hall ->]. split_and!.
    + split; [done|]. intros (pre & now & post & -> & _ & _).
      apply Forall_app in Hall as [_ [[]%Htrue _]%Forall_cons].
    + split; [done|]. intros (pre & now & holds & post & -> & _ & Hge).
      apply Forall_app in Hall as [_ [[]%(Hlate _ _ Hge) _]%Forall_cons].
    + done.
    + done.
    + intros Hle now holds rest -> Hstart. exfalso.
      apply Forall_cons in Hall as [[Hp _] _]. cbn in Hp. lia.
Qed.

End WaitFacts.

(** ** Spreading tasks over the pool *)

Section PoolFacts.
Import Pool.
Context {Task : Type}.

(** The number of indices below [x] that fall on channel [c] of [n]. *)
Local Abbreviation turns n c x :=
  (x / n + (if decide (c < x `mod` n) then 1 else 0))%nat.

Lemma turns_S (n c x : nat) :
  (0 < n)%nat → (c < n)%nat →
  turns n c (S x) = (turns n c x + (if decide (x `mod` n = c) then 1 else 0))%nat.
Proof.
  intros Hn Hc.
  pose proof (Nat.div_mod_eq x n) as Hx.
  pose proof (Nat.mod_upper_bound x n ltac:(lia)) as Hr.
  destruct (decide (S (x `mod` n) = n)) as [Hwrap | Hnext].
  - assert (S x = (S (x / n)) * n + 0)%nat as Hsx by nia.
    assert (S x / n = S (x / n))%nat as Hq.
    { symmetry. apply (Nat.div_unique _ _ _ 0%nat); [lia | nia]. }
    assert (S x `mod` n = 0)%nat as Hm.
    { symmetry. apply (Nat.mod_unique _ _ (S (x / n))); [lia | nia]. }
    rewrite Hq, Hm. repeat case_decide; lia.
  - assert (S x / n = x / n)%nat as Hq.
    { symmetry. apply (Nat.div_unique _ _ _ (S (x `mod` n))); [lia | nia]. }
    assert (S x `mod` n = S (x `mod` n))%nat as Hm.
    { symmetry. apply (Nat.mod_unique _ _ (x / n)); [lia | nia]. }
    rewrite Hq, Hm. repeat case_decide; lia.
Qed.

Lemma distribute_spec (n : nat) (tasks : list Task) : ∀ i,
  (0 < n)%nat →
  ∃ sent, distribute n i tasks = Some sent
    ∧ sent.*2 = tasks
    ∧ sent.*1 = (λ k, (k `mod` n)%nat) <$> seq i (length tasks)
    ∧ ∀ c, (c < n)%nat →
        (turns n c i + length (load c sent) = turns n c (i + length tasks))%nat.
Proof.
  induction tasks as [| task rest IH]; intros i Hn.
  { exists []. split_and!; [done | done | done |]. intros c Hc.
    cbn. by rewrite !Nat.add_0_r. }
  destruct (IH (S i) Hn) as (sent & Heq & Htasks & Hidx & Hload).
  exists (((i `mod` n)%nat, task) :: sent). cbn [distribute].
  rewrite decide_False by lia. rewrite Heq. split_and!.
  - done.
  - cbn. by rewrite Htasks.
  - cbn. by rewrite Hidx.
  - intros c Hc. specialize (Hload c Hc). rewrite turns_S in Hload by done.
    replace (i + length (task :: rest))%nat with (S i + length rest)%nat
      by (cbn [length]; lia).
    rewrite <- Hload. unfold load. rewrite filter_cons. cbn [fst].
    destruct (decide ((i `mod` n)%nat = c)) as [Hd | Hd].
    + cbn [fmap list_fmap length]. lia.
    + lia.
Qed.

(** X21. The round robin over a pool of [n > 0] channels sends every task,
    in order, each on a channel of the pool; of [m] tasks channel [c]
    carries [m / n], and one more when [c < m mod n], so that no two
    channels differ by more than one task. *)
Theorem distribute_balanced (n : nat) (tasks : list Task) :
  (0 < n)%nat →
  ∃ sent, distribute n 0 tasks = Some sent
    ∧ sent.*2 = tasks
    ∧ Forall (λ c, c < n)%nat sent.*1
    ∧ (∀ c, (c < n)%nat →
         length (load c sent)
         = (length tasks / n + (if decide (c < length tasks `mod` n) then 1 else 0))%nat)
    ∧ (∀ c c', (c < n)%nat → (c' < n)%nat →
         (length (load c sent) ≤ length (load c' sent) + 1)%nat).
Proof.
  intros Hn. destruct (distribute_spec n tasks 0 Hn) as (sent & Heq & Htasks & Hidx & Hload).
  assert (∀ c, (c < n)%nat →
            length (load c sent)
            = (length tasks / n + (if decide (c < length tasks `mod` n) then 1 else 0))%nat)
    as Hcount.
  { intros c Hc. specialize (Hload c Hc). cbn [Nat.add] in Hload.
    rewrite Nat.Div0.div_0_l, Nat.Div0.mod_0_l in Hload.
    rewrite decide_False in Hload by lia. lia. }
  exists sent. split_and!; [done | done | | done |].
  - rewrite Hidx. apply Forall_fmap, Forall_forall. intros k _. cbn.
    apply Nat.mod_upper_bound. lia.
  - intros c c' Hc Hc'. rewrite (Hcount c Hc), (Hcount c' Hc').
    repeat case_decide; lia.
Qed.

(** An empty pool takes no task: the loop throws at the first one. *)
Lemma distribute_empty_pool (i : nat) (tasks : list Task) :
  distribute 0 i tasks = if decide (tasks = []) then Some [] else None.
Proof. by destruct tasks. Qed.

End PoolFacts.

Lemma distribute_balanced_witness :
  (0 < 5)%nat
  ∧ ∃ sent, Pool.distribute 5 0 ["a"; "b"; "c"; "d"; "e"; "f"; "g"] = Some sent
      ∧ length (Pool.load 1%nat sent) = 2%nat ∧ length (Pool.load 2%nat sent) = 1%nat.
Proof.
  assert (0 < 5)%nat as Hn by lia. split; [exact Hn|].
  destruct (distribute_balanced 5 ["a"; "b"; "c"; "d"; "e"; "f"; "g"] Hn)
    as (sent & Heq & _ & _ & Hcount & _).
  exists sent. split; [exact Heq|]. split.
  - rewrite (Hcount 1%nat) by lia. reflexivity.
  - rewrite (Hcount 2%nat) by lia. reflexivity.
Defined.

(** ** The identity after the fix *)

Section FixedIdentityFacts.
Import JS Identity Routing.
Context {rng : Type} (uuidv4 : rng → string * rng).

(** X1. An orchestrator and the client it builds hold the same id, so the
    queue the client declares and the [replyTo] of its broadcasts are named
    after the orchestrator's id.  [AGENT_ID] plays no part in it: the
    orchestrator does not read it and always hands the client an id, so that
    without a configured id the two hold a generated id, drawn once, also
    when [AGENT_ID] is set. *)
Theorem orchestrator_identity_shared (config : Config) (env env' : Env) (g : rng)
    (m : Session) (ex : option string) (ch : Channel) :
  let o := (new_Orchestrator uuidv4 config env g).1 in
  agentId (client o) = orch_agentId o
  ∧ (setupBrainstormResultQueue (client o) ch).1 = result_queue_name (orch_agentId o)
  ∧ replyTo (broadcastBrainstorm (client o) m ex ch).1
    = result_queue_name (orch_agentId o)
  ∧ new_Orchestrator uuidv4 config env' g = new_Orchestrator uuidv4 config env g
  ∧ (truthy (cfg_agentId config) = false →
       orch_agentId o = VString ("agent-" +:+ (uuidv4 g).1)
       ∧ (new_Orchestrator uuidv4 config env g).2 = (uuidv4 g).2).
Proof.
  intros o. subst o.
  destruct (orchestrator_client_same_id uuidv4 config env g) as [Hsame _].
  cbn zeta in Hsame. split_and!.
  - exact Hsame.
  - unfold setupBrainstormResultQueue, result_queue_name. cbn [fst]. by rewrite Hsame.
  - unfold broadcastBrainstorm, result_queue_name. cbn [fst replyTo]. by rewrite Hsame.
  - unfold new_Orchestrator.
    pose proof (or_else_supplied (cfg_agentId config) (generate uuidv4) g
                  (generate_supplied uuidv4 g)) as Hs.
    destruct (or_else (cfg_agentId config) (generate uuidv4) g) as [id g1].
    cbn [fst] in Hs. unfold new_RabbitMQClient. cbn [cfg_agentId].
    by rewrite !or_else_truthy by by apply supplied_truthy.
  - intros Hfalsy. unfold new_Orchestrator.
    rewrite or_else_falsy by done. unfold generate.
    destruct (uuidv4 g) as [u g1]. unfold new_RabbitMQClient. cbn [cfg_agentId].
    rewrite or_else_truthy by (apply truthy_VString; by destruct u).
    done.
Qed.

End FixedIdentityFacts.

Section ConsumerRuns.
Import JS Identity Routing Consumers Scenario.

Lemma response_fan_in_witness :
  let asker := {| agentId := VString "agent-1" |} in
  let other := {| agentId := VString "agent-7" |} in
  let m := {| s_sessionId := VString "s1"; topic := "latency";
              question := "where is the time spent" |} in
  let w := {| w_agentId := VString "agent-2"; brainstormsParticipated := 0 |} in
  let msg := (broadcastBrainstorm asker m None empty_channel).1 in
  let ch' := (handleBrainstorm w msg "cache the lookups" 100 empty_channel).2 in
  handled (startLeader asker empty_channel).1 ch' = [r1; r1]
  ∧ handled (startLeader other empty_channel).1 ch' = [r1]
  ∧ handled (startWorker asker empty_channel).1 ch' = [r1]
  ∧ handled (startWorker other empty_channel).1 ch' = [].
Proof.
  assert ("agent-1" ≠ "") as Ha by discriminate.
  assert ("agent-7" ≠ "") as Hb by discriminate.
  assert ("agent-1" ≠ "agent-7") as Hab by discriminate.
  exact (response_fan_in {| agentId := VString "agent-1" |}
           {| agentId := VString "agent-7" |} "agent-1" "agent-7"
           {| s_sessionId := VString "s1"; topic := "latency";
              question := "where is the time spent" |} None empty_channel
           {| w_agentId := VString "agent-2"; brainstormsParticipated := 0 |}
           "cache the lookups" 100 empty_channel eq_refl Ha eq_refl Hb Hab).
Defined.

Lemma by_type_separates_witness :
  let status := {| sessionId := VUndefined; from := VString "agent-2";
                   suggestion := "done"; timestamp := 500; type := "task_result" |} in
  type status ≠ "brainstorm_response"
  ∧ sent (Solution3.publishResult status empty_channel) = [("agent.results", status)]
  ∧ queue_contents "agent.brainstorm.results"
      (Solution3.publishResult status empty_channel) = [].
Proof.
  assert (type {| sessionId := VUndefined; from := VString "agent-2";
                  suggestion := "done"; timestamp := 500; type := "task_result" |}
          ≠ "brainstorm_response") as Hty by discriminate.
  split; [exact Hty|].
  destruct (by_type_separates
              {| w_agentId := VString "agent-2"; brainstormsParticipated := 0 |}
              {| b_from := VString "agent-1"; replyTo := "brainstorm.results.agent-1";
                 message := {| s_sessionId := VString "s1"; topic := "latency";
                               question := "where is the time spent" |} |}
              "cache the lookups" 100 _ empty_channel Hty) as (_ & _ & Hsent & Hq).
  split; [exact Hsent | exact Hq].
Defined.

End ConsumerRuns.

(** ** When a call without [maxResponses] resolves *)

Section TimeoutOnly.
Import JS Routing Collector.
Variable sid : value.
Variable opts : Options.
Variable start : Z.

Local Abbreviation run' := (run sid opts start).

Lemma early_ticks_pending evs : ∀ st,
  maxResponses opts = None → pending st →
  (∀ t, Tick t ∈ evs → t - start < timeout_of opts) →
  pending (run' st evs).
Proof.
  induction evs as [| e evs IH]; intros st Hmax Hp Hearly; [done|].
  change (run' st (e :: evs)) with (run' (step sid opts start st e) evs).
  apply IH; [done | | intros t Ht; apply Hearly; by right].
  destruct e as [now | r].
  - pose proof (on_interval_pending opts start now st Hp) as Hstep.
    rewrite bool_decide_false in Hstep
      by (specialize (Hearly now (list_elem_of_here _ _)); lia).
    rewrite enough_needs_maxResponses in Hstep by done. cbn in Hstep.
    cbn. destruct Hp as [Hi Hs]. rewrite Hi, Hstep. by split.
  - by apply on_result_pending.
Qed.

Lemma pending_before evs : ∀ st t,
  maxResponses opts = None → pending st → pending (run' st evs) →
  Tick t ∈ evs → t - start < timeout_of opts.
Proof.
  induction evs as [| e evs IH]; intros st t Hmax Hp Hend Hin.
  { by apply elem_of_nil in Hin. }
  change (run' st (e :: evs)) with (run' (step sid opts start st e) evs) in Hend.
  destruct (decide (timeout_of opts ≤ t - start)) as [Hdue | ?]; [exfalso | lia].
  apply elem_of_cons in Hin as [<- | Hin].
  - pose proof (timeout_settles sid opts start st t Hp Hdue) as Hs.
    destruct Hend as [_ Hn].
    erewrite run_settled in Hn by exact Hs. discriminate.
  - assert (coherent (step sid opts start st e)) as [Hp' | [_ [s Hs]]]
      by (apply step_coherent; by left).
    + specialize (IH _ t Hmax Hp' Hend Hin). lia.
    + destruct Hend as [_ Hn]. erewrite run_settled in Hn by exact Hs. discriminate.
Qed.

End TimeoutOnly.

Section TimeoutOnlyClaims.
Import JS Routing Collector Scenario.

(** X7. A call of [collectResponses] without [maxResponses] resolves at the
    first interval callback that finds the timeout elapsed, and at no other
    moment, however many responses have arrived; it resolves with the
    responses of its session that arrived before that callback. *)
Theorem collectResponses_resolves_at_timeout (sid : value) (opts : Options)
    (start : Z) (evs : list Event) (s : Settlement) :
  maxResponses opts = None →
  settled (collectResponses sid opts start evs) = Some s
  ↔ ∃ pre now post,
      evs = pre ++ Tick now :: post
      ∧ (∀ t, Tick t ∈ pre → t - start < timeout_of opts)
      ∧ timeout_of opts ≤ now - start
      ∧ s = {| settledAt := now;
               settledWith := filter (λ r, sessionId r = sid) (arrivals pre) |}.
Proof.
  intros Hmax. assert (pending initial) as Hp by by split.
  unfold collectResponses. split.
  - intros Hs.
    destruct (run_settles_at sid opts start evs initial s Hp Hs)
      as (pre & now & post & -> & Hpre & -> & Hwhy).
    exists pre, now, post. split_and!.
    + done.
    + intros t Ht. by apply (pending_before sid opts start pre initial).
    + destruct Hwhy as [Ht | He]; [done|].
      by rewrite enough_needs_maxResponses in He.
    + by rewrite run_responses.
  - intros (pre & now & post & -> & Hearly & Hdue & ->).
    assert (pending (run sid opts start initial pre)) as Hpre
      by by apply early_ticks_pending.
    change (pre ++ Tick now :: post) with (pre ++ [Tick now] ++ post).
    rewrite app_assoc. unfold run. rewrite foldl_app. apply run_settled.
    fold (run sid opts start initial (pre ++ [Tick now])). rewrite run_snoc.
    rewrite (timeout_settles sid opts start _ now Hpre Hdue).
    by rewrite run_responses.
Qed.

Lemma collectResponses_resolves_at_timeout_witness :
  maxResponses (options 3000 1) = None
  ∧ settled (collectResponses (VString "s1") (options 3000 1) 0
               ([Result r1; Tick 1000; Result other; Result r2; Tick 2000]
                ++ Tick 3000 :: [Result r3; Tick 4000]))
    = Some {| settledAt := 3000; settledWith := [r1; r2] |}.
Proof.
  split; [reflexivity|].
  apply (proj2 (collectResponses_resolves_at_timeout (VString "s1") (options 3000 1) 0
                  ([Result r1; Tick 1000; Result other; Result r2; Tick 2000]
                   ++ Tick 3000 :: [Result r3; Tick 4000])
                  {| settledAt := 3000; settledWith := [r1; r2] |} eq_refl)).
  exists [Result r1; Tick 1000; Result other; Result r2; Tick 2000], 3000,
    [Result r3; Tick 4000].
  split_and!.
  - reflexivity.
  - intros t Ht. cbn. rewrite !elem_of_cons, elem_of_nil in Ht.
    destruct Ht as [[=] | [[= ->] | [[=] | [[=] | [[= ->] | []]]]]]; lia.
  - cbn. lia.
  - reflexivity.
Defined.

End TimeoutOnlyClaims.

(** ** The rounds of a discussion *)

Section RoundsFacts.
Import JS Routing Collector.

(** With a value of the fragment as session and options given, the call is
    the [collectResponses] above. *)
Lemma plain_argument_collectResponses (v : value) (o : Options) (start : Z)
    (evs : list Event) :
  Rounds.collectResponses (Rounds.Plain v) (Some o) start evs
  = collectResponses v o start evs.
Proof. reflexivity. Qed.

Lemma round_settled l start evs : ∀ st s,
  settled st = Some s → interval st = false → responses st = [] →
  settled (Rounds.run (Rounds.Object l) None start st evs) = Some s
  ∧ responses (Rounds.run (Rounds.Object l) None start st evs) = [].
Proof.
  induction evs as [| e evs IH]; intros st s Hs Hi Hr; [done|].
  unfold Rounds.run. cbn [foldl].
  assert (Rounds.step (Rounds.Object l) None start st e = st) as ->
    by (destruct e; cbn; by rewrite ?Hi).
  by apply IH.
Qed.

Lemma round_run l start evs : ∀ st,
  pending st → responses st = [] →
  responses (Rounds.run (Rounds.Object l) None start st evs) = []
  ∧ ∀ s, settled (Rounds.run (Rounds.Object l) None start st evs) = Some s
         ↔ ∃ pre now post,
             evs = pre ++ Tick now :: post
             ∧ (∀ t, Tick t ∈ pre → t - start < 60000)
             ∧ 60000 ≤ now - start
             ∧ s = {| settledAt := now; settledWith := [] |}.
Proof.
  induction evs as [| e evs IH]; intros st Hp Hr.
  { split; [done|]. intros s. cbn. destruct Hp as [_ ->]. split; [done|].
    intros (pre & now & post & Heq & _). by destruct pre. }
  unfold Rounds.run in *. cbn [foldl].
  destruct e as [now | r].
  - pose proof (on_interval_pending (Rounds.options_of None) start now st Hp) as Hstep.
    rewrite enough_needs_maxResponses, orb_false_r in Hstep by done.
    assert (Rounds.step (Rounds.Object l) None start st (Tick now)
            = on_interval (Rounds.options_of None) start now st) as ->.
    { cbn. by destruct Hp as [-> _]. }
    change (timeout_of (Rounds.options_of None)) with 60000 in Hstep.
    case_bool_decide as Hdue; rewrite Hstep.
    + rewrite Hr.
      destruct (round_settled l start evs
                  {| responses := []; interval := false;
                     settled := Some {| settledAt := now; settledWith := [] |} |}
                  _ eq_refl eq_refl eq_refl) as [Hs' Hr'].
      unfold Rounds.run in Hs', Hr'.
      split; [done|]. intros s. rewrite Hs'. split.
      * intros [= <-]. exists [], now, evs. split_and!; [done | | done | done].
        intros t Ht. by apply elem_of_nil in Ht.
      * intros (pre & now' & post & Heq & Hearly & _ & ->).
        destruct pre as [| e pre]; [by injection Heq as -> _|].
        injection Heq as <- _. specialize (Hearly now (list_elem_of_here _ _)). lia.
    + destruct (IH st Hp Hr) as [Hr' Hiff]. split; [done|].
      intros s. rewrite Hiff. split.
      * intros (pre & now' & post & -> & Hearly & Hdue' & ->).
        exists (Tick now :: pre), now', post. split_and!; [done | | done | done].
        intros t [[= ->] | Ht]%elem_of_cons; [lia | by apply Hearly].
      * intros (pre & now' & post & Heq & Hearly & Hdue' & ->).
        destruct pre as [| e pre]; [injection Heq as -> _; lia|].
        injection Heq as <- ->. exists pre, now', post.
        split_and!; [done | | done | done].
        intros t Ht. apply Hearly. by right.
  - change (Rounds.step (Rounds.Object l) None start st (Result r)) with st.
    destruct (IH st Hp Hr) as [Hr' Hiff]. split; [done|].
    intros s. rewrite Hiff. split.
    + intros (pre & now' & post & -> & Hearly & Hdue' & ->).
      exists (Result r :: pre), now', post. split_and!; [done | | done | done].
      intros t [[=] | Ht]%elem_of_cons. by apply Hearly.
    + intros (pre & now' & post & Heq & Hearly & Hdue' & ->).
      destruct pre as [| e pre]; [done|].
      injection Heq as <- ->. exists pre, now', post.
      split_and!; [done | | done | done].
      intros t Ht. apply Hearly. by right.
Qed.

(** X22. The call of [collectResponses] that [multiRoundBrainstorm] makes in
    each round hands its one object as the session id and no options.  No
    response is ever equal to that object, so the round collects nothing,
    whatever arrives and whatever session it carries; the call waits for the
    default timeout of 60000 ms and resolves with the empty array at the
    first interval callback after it. *)
Theorem round_collects_nothing (generated : value) (start : Z) (evs : list Event) :
  let st := Rounds.collectRound generated start evs in
  responses st = []
  ∧ ∀ s, settled st = Some s
         ↔ ∃ pre now post,
             evs = pre ++ Tick now :: post
             ∧ (∀ t, Tick t ∈ pre → t - start < 60000)
             ∧ 60000 ≤ now - start
             ∧ s = {| settledAt := now; settledWith := [] |}.
Proof.
  intros st. subst st. unfold Rounds.collectRound, Rounds.collectResponses.
  apply round_run; [by split | done].
Qed.

End RoundsFacts.
